(** * VocabMaster: a shallow embedding of the Express/SQLite handlers
    of [server.js] (the running copy is the file [src/unnamed/part_000]),
    for the mistake tracker, the word store, the reading importer and
    the reading submission. *)

From Stdlib Require Import ZArith List Bool Lia Ascii String Floats Permutation Sorted.
Import ListNotations.

(* ================================================================== *)
(** ** Mistake tracker: table [mistakes] and its four handlers *)
(* ================================================================== *)

Module Mistakes.

Open Scope Z_scope.

(** A row of [mistakes (id, word_id, mistake_count DEFAULT 1,
    correct_streak DEFAULT 0, added_date)]. *)
Record mistake := {
  m_id : Z;
  m_word_id : Z;
  mistake_count : Z;
  correct_streak : Z
}.

(** The table in rowid order (an unordered [SELECT] scans it in this
    order), and the AUTOINCREMENT counter. This copy of the schema has
    no unique index on [word_id]. *)
Record mstore := {
  rows : list mistake;
  next_id : Z
}.

Definition empty_store : mstore := {| rows := []; next_id := 1 |}.

(** Handler responses: a JSON row, a JSON message, an HTTP error. *)
Inductive mresp :=
| MRow (r : mistake)
| MMessage (msg : string)
| MErr (status : Z).

(** [db.get('SELECT * FROM mistakes WHERE word_id = ?', [w])]:
    the first row of the scan, if any. *)
Definition select_by_word (w : Z) (st : mstore) : option mistake :=
  find (fun r => m_word_id r =? w) (rows st).

(** Rows of one word (the word is Flagged iff this is non-empty). *)
Definition rows_of (w : Z) (st : mstore) : list mistake :=
  filter (fun r => m_word_id r =? w) (rows st).

(** [UPDATE mistakes SET ... WHERE id = ?] with a row transformer. *)
Definition update_where_id (id : Z) (f : mistake -> mistake) (st : mstore)
  : mstore :=
  {| rows := map (fun r => if m_id r =? id then f r else r) (rows st);
     next_id := next_id st |}.

(** [DELETE FROM mistakes WHERE id = ?]. *)
Definition delete_where_id (id : Z) (st : mstore) : mstore :=
  {| rows := filter (fun r => negb (m_id r =? id)) (rows st);
     next_id := next_id st |}.

(** [INSERT INTO mistakes (word_id) VALUES (?)]: column defaults
    [mistake_count = 1], [correct_streak = 0]. *)
Definition insert_mistake (w : Z) (st : mstore) : mstore * Z :=
  ({| rows := rows st ++ [{| m_id := next_id st; m_word_id := w;
                             mistake_count := 1; correct_streak := 0 |}];
      next_id := next_id st + 1 |}, next_id st).

(** Write phase of [POST /api/mistakes] (the callback of [db.get]),
    given the row the read phase found. *)
Definition add_write (w : Z) (found : option mistake) (st : mstore)
  : mstore * mresp :=
  match found with
  | Some row =>
      (update_where_id (m_id row)
         (fun r => {| m_id := m_id r; m_word_id := m_word_id r;
                      mistake_count := mistake_count r + 1;
                      correct_streak := 0 |}) st,
       MRow {| m_id := m_id row; m_word_id := w;
               mistake_count := mistake_count row + 1;
               correct_streak := 0 |})
  | None =>
      let '(st', id) := insert_mistake w st in
      (st', MRow {| m_id := id; m_word_id := w;
                    mistake_count := 1; correct_streak := 0 |})
  end.

(** Write phase of [POST /api/mistakes/correct/:wordId]. *)
Definition correct_write (w : Z) (found : option mistake) (st : mstore)
  : mstore * mresp :=
  match found with
  | Some row =>
      let updatedStreak := correct_streak row + 1 in
      if 2 <=? updatedStreak then
        (delete_where_id (m_id row) st,
         MMessage "Word removed from mistakes list"%string)
      else
        (update_where_id (m_id row)
           (fun r => {| m_id := m_id r; m_word_id := m_word_id r;
                        mistake_count := mistake_count r;
                        correct_streak := updatedStreak |}) st,
         MRow {| m_id := m_id row; m_word_id := m_word_id row;
                 mistake_count := mistake_count row;
                 correct_streak := updatedStreak |})
  | None => (st, MErr 404)
  end.

(** [POST /api/mistakes] run to completion; [word_id] is [None] when
    absent from the body, and [0] is falsy. *)
Definition post_mistakes (word_id : option Z) (st : mstore) : mstore * mresp :=
  match word_id with
  | None => (st, MErr 400)
  | Some w =>
      if w =? 0 then (st, MErr 400)
      else add_write w (select_by_word w st) st
  end.

(** [POST /api/mistakes/correct/:wordId] run to completion. *)
Definition post_mistakes_correct (w : Z) (st : mstore) : mstore * mresp :=
  correct_write w (select_by_word w st) st.

(** [DELETE /api/mistakes/:id]. *)
Definition delete_mistake (id : Z) (st : mstore) : mstore * mresp :=
  let st' := delete_where_id id st in
  if Nat.eqb (List.length (rows st')) (List.length (rows st)) then (st', MErr 404)
  else (st', MMessage "Mistake deleted successfully"%string).

(** [DELETE /api/mistakes]. *)
Definition clear_mistakes (st : mstore) : mstore * mresp :=
  ({| rows := []; next_id := next_id st |},
   MMessage "All mistakes deleted successfully"%string).

(** The requests of the tracker. *)
Inductive mop :=
| OpAdd (word_id : option Z)
| OpCorrect (w : Z)
| OpDelete (id : Z)
| OpClear.

Definition run_op (op : mop) (st : mstore) : mstore :=
  match op with
  | OpAdd w => fst (post_mistakes w st)
  | OpCorrect w => fst (post_mistakes_correct w st)
  | OpDelete id => fst (delete_mistake id st)
  | OpClear => fst (clear_mistakes st)
  end.

(** Requests served one at a time, each handler to completion. *)
Inductive seq_reachable : mstore -> Prop :=
| seq_init : seq_reachable empty_store
| seq_step : forall op st, seq_reachable st -> seq_reachable (run_op op st).

(** Requests served by Node's event loop: the [db.get] of a request
    and the write in its callback are two events, and other requests'
    events may run between them. A pending request remembers the row
    its read found. *)
Inductive pending :=
| PAdd (w : Z) (found : option mistake)
| PCorrect (w : Z) (found : option mistake).

Definition run_pending (p : pending) (st : mstore) : mstore :=
  match p with
  | PAdd w found => fst (add_write w found st)
  | PCorrect w found => fst (correct_write w found st)
  end.

Inductive conc_reachable : mstore -> list pending -> Prop :=
| conc_init : conc_reachable empty_store []
| conc_read_add : forall st ps w,
    conc_reachable st ps -> w <> 0 ->
    conc_reachable st (PAdd w (select_by_word w st) :: ps)
| conc_read_correct : forall st ps w,
    conc_reachable st ps ->
    conc_reachable st (PCorrect w (select_by_word w st) :: ps)
| conc_write : forall st ps1 p ps2,
    conc_reachable st (ps1 ++ p :: ps2) ->
    conc_reachable (run_pending p st) (ps1 ++ ps2)
| conc_atomic : forall st ps op,
    conc_reachable st ps ->
    (match op with OpAdd (Some w) => w = 0 | OpCorrect _ => False | _ => True end) ->
    conc_reachable (run_op op st) ps.

(** The invariant the spec states for the table. *)
Definition row_ok (r : mistake) : Prop :=
  0 <= correct_streak r < 2 /\ 1 <= mistake_count r.

Definition one_row_per_word (st : mstore) : Prop :=
  NoDup (map m_word_id (rows st)).

Definition mistakes_inv (st : mstore) : Prop :=
  one_row_per_word st /\ Forall row_ok (rows st).

End Mistakes.

(* ================================================================== *)
(** ** Word store: table [words] and its handlers *)
(* ================================================================== *)

Module Words.

Open Scope string_scope.
Open Scope Z_scope.

(** A row of [words (id, english TEXT NOT NULL UNIQUE, chinese, example,
    added_date, familiarity DEFAULT 0, exposure DEFAULT 0)]; [example]
    may be NULL. *)
Record word := {
  w_id : Z;
  english : string;
  chinese : string;
  example : option string;
  familiarity : Z;
  exposure : Z
}.

Record wstore := {
  words : list word;
  w_next_id : Z
}.

Inductive wresp :=
| WOk
| WRow (w : word)
| WFields (id : Z) (english chinese : string) (example : option string)
| WErr (status : Z).

(** [SELECT * FROM words WHERE id = ?]. *)
Definition find_word (id : Z) (st : wstore) : option word :=
  find (fun w => w_id w =? id) (words st).

(** [UPDATE words SET ... WHERE id = ?] with a row transformer. *)
Definition update_word_where_id (id : Z) (f : word -> word) (st : wstore) : wstore :=
  {| words := map (fun w => if w_id w =? id then f w else w) (words st);
     w_next_id := w_next_id st |}.

Definition bump_exposure (w : word) : word :=
  {| w_id := w_id w; english := english w; chinese := chinese w;
     example := example w; familiarity := familiarity w;
     exposure := exposure w + 1 |}.

Definition bump_familiarity (w : word) : word :=
  {| w_id := w_id w; english := english w; chinese := chinese w;
     example := example w; familiarity := familiarity w + 1;
     exposure := exposure w |}.

(** [POST /api/words/:id/update-stats]: in one transaction,
    [exposure = exposure + 1], then [familiarity = familiarity + 1] when
    [isCorrect] is truthy; the answer is [{success: true}]. *)
Definition update_stats (id : Z) (isCorrect : bool) (st : wstore) : wstore * wresp :=
  let st1 := update_word_where_id id bump_exposure st in
  if isCorrect then (update_word_where_id id bump_familiarity st1, WOk)
  else (st1, WOk).

(** SQLite's [LOWER] (ASCII letters only, without ICU). *)
Definition sql_lower_ascii (c : Ascii.ascii) : Ascii.ascii :=
  let n := Ascii.nat_of_ascii c in
  if (Nat.leb 65 n && Nat.leb n 90)%bool then Ascii.ascii_of_nat (n + 32) else c.

Fixpoint sql_lower (s : string) : string :=
  match s with
  | EmptyString => EmptyString
  | String c s' => String (sql_lower_ascii c) (sql_lower s')
  end.

(** A body field is falsy when absent or empty. *)
Definition truthy_str (s : option string) : bool :=
  match s with Some v => negb (String.eqb v "") | None => false end.

(** [english TEXT NOT NULL UNIQUE] compares with the BINARY collation:
    the update of row [id] to [e] violates it when another row has
    exactly [e]. *)
Definition unique_violation (id : Z) (e : string) (st : wstore) : bool :=
  existsb (fun w => negb (w_id w =? id) && String.eqb (english w) e) (words st).

(** [PUT /api/words/:id] of the running server: no duplicate check,
    only the UPDATE statement, whose constraint error is a 500 and
    whose [this.changes = 0] is a 404. *)
Definition put_word (id : Z) (english' chinese' : option string)
    (example' : option string) (st : wstore) : wstore * wresp :=
  if negb (truthy_str english' && truthy_str chinese') then (st, WErr 400)
  else
    let e := match english' with Some v => v | None => EmptyString end in
    let c := match chinese' with Some v => v | None => EmptyString end in
    match find_word id st with
    | None => (st, WErr 404)
    | Some _ =>
        if unique_violation id e st then (st, WErr 500)
        else
          let f := fun w => {| w_id := w_id w; english := e; chinese := c;
                               example := example'; familiarity := familiarity w;
                               exposure := exposure w |} in
          (update_word_where_id id f st, WFields id e c example')
    end.

(** [POST /api/words] (the sibling handler): checks
    [LOWER(english) = LOWER(?)] first and answers 409 on a match. *)
Definition post_word (english' chinese' : option string) (example' : option string)
    (st : wstore) : wstore * wresp :=
  if negb (truthy_str english' && truthy_str chinese') then (st, WErr 400)
  else
    let e := match english' with Some v => v | None => EmptyString end in
    let c := match chinese' with Some v => v | None => EmptyString end in
    if existsb (fun w => String.eqb (sql_lower (english w)) (sql_lower e)) (words st)
    then (st, WErr 409)
    else
      let w := {| w_id := w_next_id st; english := e; chinese := c;
                  example := example'; familiarity := 0; exposure := 0 |} in
      ({| words := words st ++ [w]; w_next_id := w_next_id st + 1 |}, WRow w).

End Words.

(* ================================================================== *)
(** ** JavaScript strings and the regular expressions of the importer *)
(* ================================================================== *)

Module JsRegex.

Open Scope Z_scope.

(** A JS string: its UTF-16 code units. *)
Definition jstr := list Z.

(** ASCII text as a JS string. *)
Definition js (s : string) : jstr :=
  map (fun c => Z.of_nat (Ascii.nat_of_ascii c)) (list_ascii_of_string s).

(** [\s] and the set [String.prototype.trim] removes: WhiteSpace and
    LineTerminator code units. *)
Definition is_ws (c : Z) : bool :=
  (c =? 9) || (c =? 10) || (c =? 11) || (c =? 12) || (c =? 13) || (c =? 32)
  || (c =? 160) || (c =? 5760) || ((8192 <=? c) && (c <=? 8202))
  || (c =? 8232) || (c =? 8233) || (c =? 8239) || (c =? 8287)
  || (c =? 12288) || (c =? 65279).

Definition is_digit (c : Z) : bool := (48 <=? c) && (c <=? 57).

(** The class [[.、]]. *)
Definition is_dot (c : Z) : bool := (c =? 46) || (c =? 12289).

(** Regular expressions as used by the importer: single code units from
    a class, sequence, alternation, a class repeated greedily or lazily,
    capture groups, positive lookahead, and [$] without the [m] flag. *)
Inductive re :=
| RChar (p : Z -> bool)
| RSeq (r1 r2 : re)
| RAlt (r1 r2 : re)
| RStar (greedy : bool) (p : Z -> bool)
| RGroup (n : nat) (r : re)
| RLookahead (r : re)
| REnd.

(** Matcher state: position, the input from that position, and the
    capture groups set so far (latest first). *)
Record mstate := {
  pos : nat;
  rest : jstr;
  caps : list (nat * (nat * nat))
}.

Definition advance (s : mstate) (t : jstr) : mstate :=
  {| pos := S (pos s); rest := t; caps := caps s |}.

(** The backtracking matcher of ECMAScript (§22.2.2), in continuation
    passing style: [m r s k] matches [r] at [s] and passes each
    candidate end state, in the order the JS engine tries them, to [k]
    until [k] succeeds. *)
Fixpoint star_m (greedy : bool) (p : Z -> bool) (l : jstr) (s : mstate)
    (k : mstate -> option mstate) : option mstate :=
  match l with
  | [] => k s
  | c :: t =>
      if p c then
        if greedy then
          match star_m greedy p t (advance s t) k with
          | Some x => Some x
          | None => k s
          end
        else
          match k s with
          | Some x => Some x
          | None => star_m greedy p t (advance s t) k
          end
      else k s
  end.

Fixpoint m (r : re) (s : mstate) (k : mstate -> option mstate) : option mstate :=
  match r with
  | RChar p =>
      match rest s with
      | c :: t => if p c then k (advance s t) else None
      | [] => None
      end
  | RSeq r1 r2 => m r1 s (fun s' => m r2 s' k)
  | RAlt r1 r2 =>
      match m r1 s k with
      | Some x => Some x
      | None => m r2 s k
      end
  | RStar g p => star_m g p (rest s) s k
  | RGroup n r1 =>
      m r1 s (fun s' => k {| pos := pos s'; rest := rest s';
                             caps := (n, (pos s, pos s')) :: caps s' |})
  | RLookahead r1 =>
      match m r1 s (fun s' => Some s') with
      | Some _ => k s
      | None => None
      end
  | REnd =>
      match rest s with
      | [] => k s
      | _ => None
      end
  end.

(** A match that starts exactly at [i]. *)
Definition match_at (r : re) (input : jstr) (i : nat) : option mstate :=
  m r {| pos := i; rest := skipn i input; caps := [] |} (fun s => Some s).

Definition substr (a b : nat) (input : jstr) : jstr :=
  firstn (b - a) (skipn a input).

(** [match[n]] of a successful match ([undefined] read as empty). *)
Definition group (input : jstr) (s : mstate) (n : nat) : jstr :=
  match find (fun e => Nat.eqb (fst e) n) (caps s) with
  | Some (_, (a, b)) => substr a b input
  | None => []
  end.

(** [RegExpBuiltinExec] of a global regex from [lastIndex]: the first
    position [>= lastIndex] where a match starts. *)
Fixpoint search (r : re) (input : jstr) (i : nat) (fuel : nat) : option mstate :=
  match fuel with
  | O => None
  | S f =>
      if Nat.ltb (List.length input) i then None
      else match match_at r input i with
           | Some s => Some s
           | None => search r input (S i) f
           end
  end.

Definition exec (r : re) (input : jstr) (lastIndex : nat) : option mstate :=
  search r input lastIndex (S (List.length input)).

(** [while ((match = re.exec(text)) !== null) ...]: every match of the
    importer's regexes consumes at least one code unit, so the loop
    stops within [List.length + 1] rounds. *)
Fixpoint exec_loop (r : re) (input : jstr) (lastIndex : nat) (fuel : nat)
  : list mstate :=
  match fuel with
  | O => []
  | S f =>
      match exec r input lastIndex with
      | None => []
      | Some s => s :: exec_loop r input (pos s) f
      end
  end.

Definition exec_all (r : re) (input : jstr) : list mstate :=
  exec_loop r input 0 (S (List.length input)).

(** [String.prototype.split(regex)] (§22.2.6.14) for a regex without
    capture groups and without limit. *)
Fixpoint split_loop (r : re) (input : jstr) (p q : nat) (fuel : nat) : list jstr :=
  match fuel with
  | O => [substr p (List.length input) input]
  | S f =>
      if Nat.ltb q (List.length input) then
        match match_at r input q with
        | None => split_loop r input p (S q) f
        | Some s =>
            let e := Nat.min (pos s) (List.length input) in
            if Nat.eqb e p then split_loop r input p (S q) f
            else substr p q input :: split_loop r input e e f
        end
      else [substr p (List.length input) input]
  end.

Definition js_split (r : re) (input : jstr) : list jstr :=
  match input with
  | [] => match match_at r input 0 with Some _ => [] | None => [input] end
  | _ => split_loop r input 0 0 (2 * List.length input + 2)
  end.

(** [String.prototype.trim]. *)
Fixpoint trim_start (s : jstr) : jstr :=
  match s with
  | c :: t => if is_ws c then trim_start t else s
  | [] => []
  end.

Definition trim (s : jstr) : jstr := rev (trim_start (rev (trim_start s))).

(** [String.prototype.split(sep)] with a one-unit separator. *)
Fixpoint split_char (sep : Z) (s : jstr) : list jstr :=
  match s with
  | [] => [[]]
  | c :: t =>
      if c =? sep then [] :: split_char sep t
      else match split_char sep t with
           | w :: ws => (c :: w) :: ws
           | [] => [[c]]
           end
  end.

(** [Array.prototype.join(sep)]. *)
Fixpoint join (sep : jstr) (l : list jstr) : jstr :=
  match l with
  | [] => []
  | [x] => x
  | x :: t => x ++ sep ++ join sep t
  end.

(** [Number.prototype.toString()] of a natural number. *)
Fixpoint dec_aux (fuel : nat) (n : nat) (acc : jstr) : jstr :=
  match fuel with
  | O => acc
  | S f =>
      let acc' := (48 + Z.of_nat (Nat.modulo n 10)) :: acc in
      if Nat.ltb n 10 then acc' else dec_aux f (Nat.div n 10) acc'
  end.

Definition to_dec (n : nat) : jstr := dec_aux (S n) n [].

(** Building blocks of regex literals. *)
Definition lit (s : jstr) : re :=
  fold_right (fun c r => RSeq (RChar (Z.eqb c)) r) (RStar true (fun _ => false)) s.

Definition ws_star : re := RStar true is_ws.
Definition any (c : Z) : bool := true.
Definition digits : re := RSeq (RChar is_digit) (RStar true is_digit).
Definition lazy_any : re := RStar false any.

Fixpoint seq (l : list re) : re :=
  match l with
  | [] => RStar true (fun _ => false)
  | [r] => r
  | r :: t => RSeq r (seq t)
  end.

End JsRegex.

(* ================================================================== *)
(** ** Reading importer: [POST /api/reading/import] *)
(* ================================================================== *)

Module Importer.

Import JsRegex.
Open Scope Z_scope.

(** The three markers 阅读文本, 选择题 and 答案. *)
Definition mark_text : jstr := [38405; 35835; 25991; 26412].
Definition mark_questions : jstr := [36873; 25321; 39064].
Definition mark_answers : jstr := [31572; 26696].

(** [/\s*阅读文本\s*|\s*选择题\s*|\s*答案\s*/] *)
Definition marker_re : re :=
  RAlt (seq [ws_star; lit mark_text; ws_star])
       (RAlt (seq [ws_star; lit mark_questions; ws_star])
             (seq [ws_star; lit mark_answers; ws_star])).

(** [/(\d+)[.、]\s*(.*?)\s*A[.、]\s*(.*?)\s*B[.、]\s*(.*?)\s*C[.、]\s*(.*?)(?=\d+[.、]|$)/gs]
    (with [s], [.] is any code unit). *)
Definition question_re : re :=
  seq [RGroup 1 digits; RChar is_dot; ws_star;
       RGroup 2 lazy_any; ws_star; RChar (Z.eqb 65); RChar is_dot; ws_star;
       RGroup 3 lazy_any; ws_star; RChar (Z.eqb 66); RChar is_dot; ws_star;
       RGroup 4 lazy_any; ws_star; RChar (Z.eqb 67); RChar is_dot; ws_star;
       RGroup 5 lazy_any;
       RLookahead (RAlt (RSeq digits (RChar is_dot)) REnd)].

(** [/(\d+)\s*[.、]\s*([ABC])\s*/g] *)
Definition answer_re : re :=
  seq [RGroup 1 digits; ws_star; RChar is_dot; ws_star;
       RGroup 2 (RChar (fun c => (c =? 65) || (c =? 66) || (c =? 67))); ws_star].

Record question := {
  questionText : jstr;
  optionA : jstr;
  optionB : jstr;
  optionC : jstr
}.

(** The [questions] array built by the [questionRegex.exec] loop. *)
Definition parse_questions (questionsText : jstr) : list question :=
  map (fun mt => {| questionText := trim (group questionsText mt 2);
                    optionA := trim (group questionsText mt 3);
                    optionB := trim (group questionsText mt 4);
                    optionC := trim (group questionsText mt 5) |})
      (exec_all question_re questionsText).

(** A JS object with string keys, in insertion order: [o[k] = v]. *)
Fixpoint obj_set (k v : jstr) (o : list (jstr * jstr)) : list (jstr * jstr) :=
  match o with
  | [] => [(k, v)]
  | (k', v') :: t =>
      if list_eq_dec Z.eq_dec k k' then (k, v) :: t else (k', v') :: obj_set k v t
  end.

Definition obj_get (k : jstr) (o : list (jstr * jstr)) : option jstr :=
  match find (fun e => if list_eq_dec Z.eq_dec (fst e) k then true else false) o with
  | Some (_, v) => Some v
  | None => None
  end.

Definition is_abc (v : jstr) : bool :=
  if list_eq_dec Z.eq_dec v [65] then true
  else if list_eq_dec Z.eq_dec v [66] then true
  else if list_eq_dec Z.eq_dec v [67] then true else false.

(** The [answers] object and the [answerErrors] array built by the
    [answerRegex.exec] loop. *)
Definition parse_answers (answersText : jstr) : list (jstr * jstr) * list jstr :=
  fold_left (fun acc mt =>
               let '(answers, errs) := acc in
               let questionNum := group answersText mt 1 in
               let option := group answersText mt 2 in
               (obj_set questionNum option answers,
                if is_abc option then errs else errs ++ [questionNum]))
            (exec_all answer_re answersText) ([], []).

(** Why the importer answers 400. *)
Inductive import_error :=
| ErrEmptyContent
| ErrSections
| ErrPassageEmpty
| ErrTitle
| ErrBody
| ErrNoQuestions
| ErrQuestionText (i : nat)
| ErrOptions (i : nat)
| ErrNoAnswers
| ErrAnswerLetter
| ErrCountMismatch (nq na : nat)
| ErrMissingAnswer (i : nat).

(** The validation loop over the questions: first failing index. *)
Fixpoint check_questions (i : nat) (qs : list question) : option import_error :=
  match qs with
  | [] => None
  | q :: t =>
      match questionText q with
      | [] => Some (ErrQuestionText (S i))
      | _ =>
          match optionA q, optionB q, optionC q with
          | [], _, _ | _, [], _ | _, _, [] => Some (ErrOptions (S i))
          | _, _, _ => check_questions (S i) t
          end
      end
  end.

(** [for (i = 0; i < n; i++) if (!answers[(i+1).toString()]) ...] *)
Fixpoint first_missing (i n : nat) (answers : list (jstr * jstr)) : option nat :=
  match n with
  | O => None
  | S n' =>
      match obj_get (to_dec (S i)) answers with
      | Some (_ :: _) => first_missing (S i) n' answers
      | _ => Some (S i)
      end
  end.

(** The parsed import: title, body, questions with their answers. *)
Record parsed := {
  p_title : jstr;
  p_body : jstr;
  p_questions : list question;
  p_answers : list (jstr * jstr)
}.

(** All the checks the handler makes before touching the database. *)
Definition parse_import (content : jstr) : (import_error + parsed)%type :=
  let contentParts := js_split marker_re content in
  if Nat.ltb (List.length contentParts) 4 then inl ErrSections else
  let passageContent := trim (nth 1 contentParts []) in
  let questionsText := trim (nth 2 contentParts []) in
  let answersText := trim (nth 3 contentParts []) in
  let lines := split_char 10 passageContent in
  if Nat.ltb (List.length lines) 1 then inl ErrPassageEmpty else
  let title := trim (nth 0 lines []) in
  match title with [] => inl ErrTitle | _ =>
  let actualContent := trim (join [10] (tl lines)) in
  match actualContent with [] => inl ErrBody | _ =>
  let questions := parse_questions questionsText in
  match questions with [] => inl ErrNoQuestions | _ =>
  match check_questions 0 questions with Some e => inl e | None =>
  let '(answers, answerErrors) := parse_answers answersText in
  match answers with [] => inl ErrNoAnswers | _ =>
  match answerErrors with _ :: _ => inl ErrAnswerLetter | [] =>
  if negb (Nat.eqb (List.length questions) (List.length answers))
  then inl (ErrCountMismatch (List.length questions) (List.length answers)) else
  match first_missing 0 (List.length questions) answers with
  | Some i => inl (ErrMissingAnswer i)
  | None => inr {| p_title := title; p_body := actualContent;
                   p_questions := questions; p_answers := answers |}
  end end end end end end end.

(** Tables [reading_passages] and [reading_questions]. *)
Record passage_row := {
  rp_id : Z;
  rp_title : jstr;
  rp_content : jstr;
  rp_exposure : Z
}.

Record question_row := {
  rq_id : Z;
  rq_passage_id : Z;
  rq_question_text : jstr;
  rq_option_a : jstr;
  rq_option_b : jstr;
  rq_option_c : jstr;
  rq_correct_answer : jstr
}.

Record rstore := {
  passages : list passage_row;
  questions : list question_row;
  next_passage_id : Z;
  next_question_id : Z
}.

Definition empty_rstore : rstore :=
  {| passages := []; questions := []; next_passage_id := 1; next_question_id := 1 |}.

(** The [questions.forEach] of the transaction: one INSERT per question
    with its answer; returns the store and [successCount]. *)
Fixpoint insert_questions (passageId : Z) (i : nat) (qs : list question)
    (answers : list (jstr * jstr)) (db : rstore) (successCount : nat)
  : rstore * nat :=
  match qs with
  | [] => (db, successCount)
  | q :: t =>
      match obj_get (to_dec (S i)) answers with
      | Some ((_ :: _) as correctAnswer) =>
          let row := {| rq_id := next_question_id db; rq_passage_id := passageId;
                        rq_question_text := questionText q;
                        rq_option_a := optionA q; rq_option_b := optionB q;
                        rq_option_c := optionC q; rq_correct_answer := correctAnswer |} in
          insert_questions passageId (S i) t answers
            {| passages := passages db; questions := questions db ++ [row];
               next_passage_id := next_passage_id db;
               next_question_id := next_question_id db + 1 |}
            (S successCount)
      | _ => insert_questions passageId (S i) t answers db successCount
      end
  end.

Inductive import_result :=
| ImportOk (success_count total_questions : nat)
| ImportErr (status : Z) (e : import_error).

(** [POST /api/reading/import]; [content] is [None] when absent. *)
Definition reading_import (content : option jstr) (db : rstore) : rstore * import_result :=
  match content with
  | None | Some [] => (db, ImportErr 400 ErrEmptyContent)
  | Some c =>
      match parse_import c with
      | inl e => (db, ImportErr 400 e)
      | inr pi =>
          let passageId := next_passage_id db in
          let db1 := {| passages := passages db ++
                          [{| rp_id := passageId; rp_title := p_title pi;
                              rp_content := p_body pi; rp_exposure := 0 |}];
                        questions := questions db;
                        next_passage_id := passageId + 1;
                        next_question_id := next_question_id db |} in
          let '(db2, successCount) :=
            insert_questions passageId 0 (p_questions pi) (p_answers pi) db1 O in
          (db2, ImportOk 1 successCount)
      end
  end.

End Importer.

(* ================================================================== *)
(** ** Reading answers: [POST /api/reading/submit-answers] *)
(* ================================================================== *)

Module Submit.

Import JsRegex Importer.
Open Scope Z_scope.

(** [Math.round] (ECMA-262 §21.3.2.28) on a binary64 value: the
    integral Number closest to [x], ties towards +∞, computed exactly
    from the mantissa and the exponent; a negative value that rounds to
    0 gives -0, and NaN, infinities, zeros and integral values are
    returned unchanged. *)
Definition math_round (x : float) : float :=
  match Prim2SF x with
  | S754_finite s mx ex =>
      if 0 <=? ex then x
      else
        let v := if s then Z.neg mx else Z.pos mx in
        let n := (2 * v + 2 ^ (- ex)) / 2 ^ (1 - ex) in
        SF2Prim (binary_normalize prec emax n 0 s)
  | _ => x
  end.

(** A count ([correctCount], [array.length]) as a JS Number. *)
Definition num_of_nat (n : nat) : float := of_uint63 (Uint63.of_Z (Z.of_nat n)).

(** An integer as a JS Number (exact below 2^53). *)
Definition num_of_Z (n : Z) : float := SF2Prim (binary_normalize prec emax n 0 false).

(** Table [test_results]; [score] holds the Number bound to it. *)
Record test_result := {
  tr_id : Z;
  tr_score : float;
  tr_total_words : Z;
  tr_correct_count : Z;
  tr_incorrect_count : Z;
  tr_type : string
}.

Record sstore := {
  reading : rstore;
  test_results : list test_result;
  next_result_id : Z
}.

(** [answers[q.id]] on the request's [answers] object. *)
Fixpoint obj_lookup (k : Z) (o : list (Z * jstr)) : option jstr :=
  match o with
  | [] => None
  | (k', v) :: t => if k' =? k then Some v else obj_lookup k t
  end.

Definition jstr_eqb (a b : jstr) : bool :=
  if list_eq_dec Z.eq_dec a b then true else false.

(** [SELECT id, correct_answer FROM reading_questions WHERE passage_id = ?] *)
Definition passage_questions (passageId : Z) (st : sstore) : list question_row :=
  filter (fun q => rq_passage_id q =? passageId) (questions (reading st)).

(** One element of [results]; [isCorrect] is the truthiness of
    [userAnswer && ...]. *)
Record answer_result := {
  questionId : Z;
  userAnswer : option jstr;
  correctAnswer : jstr;
  isCorrect : bool
}.

Inductive sresp :=
| SErr (status : Z)
| SOk (score : float) (correctCount totalQuestions : nat) (results : list answer_result).

(** The INSERT into [test_results]: a NaN score is bound as NULL and the
    NOT NULL constraint on [score] rejects the row; the callback only
    logs the error. *)
Definition insert_test_result (score : float) (totalQuestions correctCount : nat)
    (st : sstore) : sstore :=
  if is_nan score then st
  else {| reading := reading st;
          test_results := test_results st ++
            [{| tr_id := next_result_id st; tr_score := score;
                tr_total_words := Z.of_nat totalQuestions;
                tr_correct_count := Z.of_nat correctCount;
                tr_incorrect_count := Z.of_nat totalQuestions - Z.of_nat correctCount;
                tr_type := "reading-comprehension"%string |}];
          next_result_id := next_result_id st + 1 |}.

Section Handler.

(** [String.prototype.toUpperCase]. *)
Variable toUpperCase : jstr -> jstr.

Definition is_correct (answers : list (Z * jstr)) (q : question_row) : bool :=
  match obj_lookup (rq_id q) answers with
  | Some ((_ :: _) as userAnswer) =>
      jstr_eqb (toUpperCase userAnswer) (toUpperCase (rq_correct_answer q))
  | _ => false
  end.

(** The handler; [passageId] is [None] when absent and [answers] is
    [None] when absent (an object is always truthy). *)
Definition submit_answers (passageId : option Z) (answers : option (list (Z * jstr)))
    (st : sstore) : sstore * sresp :=
  match passageId, answers with
  | Some pid, Some ans =>
      if pid =? 0 then (st, SErr 400) else
      let correctAnswers := passage_questions pid st in
      let results :=
        map (fun q => {| questionId := rq_id q; userAnswer := obj_lookup (rq_id q) ans;
                         correctAnswer := rq_correct_answer q;
                         isCorrect := is_correct ans q |}) correctAnswers in
      let correctCount := List.length (filter (is_correct ans) correctAnswers) in
      let totalQuestions := List.length correctAnswers in
      let score :=
        math_round ((num_of_nat correctCount / num_of_nat totalQuestions) * 100)%float in
      (insert_test_result score totalQuestions correctCount st,
       SOk score correctCount totalQuestions results)
  | _, _ => (st, SErr 400)
  end.

(** The count the spec describes: submitted answers equal to the stored
    one up to [toUpperCase]. *)
Definition matches_ci (answers : list (Z * jstr)) (q : question_row) : bool :=
  match obj_lookup (rq_id q) answers with
  | Some u => jstr_eqb (toUpperCase u) (toUpperCase (rq_correct_answer q))
  | None => false
  end.

Definition spec_correct (answers : list (Z * jstr)) (qs : list question_row) : nat :=
  List.length (filter (matches_ci answers) qs).

End Handler.

(** round(c/t × 100) on exact rationals, ties upwards. *)
Definition round_half_up (c t : nat) : Z :=
  (200 * Z.of_nat c + Z.of_nat t) / (2 * Z.of_nat t).

(** The score the code computes from [c] correct of [t]. *)
Definition js_score (c t : nat) : float :=
  math_round ((num_of_nat c / num_of_nat t) * 100)%float.

(** [toUpperCase] on ASCII letters, used for concrete runs. *)
Definition ascii_upper (s : jstr) : jstr :=
  map (fun c => if (97 <=? c) && (c <=? 122) then c - 32 else c) s.

Definition empty_sstore : sstore :=
  {| reading := empty_rstore; test_results := []; next_result_id := 1 |}.

End Submit.

(* ================================================================== *)
(** ** More of the word store: lookup, deletion, search, statistics *)
(* ================================================================== *)

Module WordsApi.

Import Words.
Open Scope string_scope.
Open Scope Z_scope.

(** Responses of the handlers below: a JSON message, the count of
    [Deleted ${this.changes} words successfully], an HTTP error. *)
Inductive dresp :=
| DMessage (msg : string)
| DDeleted (changes : nat)
| DErr (status : Z).

(** [GET /api/words/:id]. *)
Definition get_word (id : Z) (st : wstore) : wresp :=
  match find_word id st with
  | Some w => WRow w
  | None => WErr 404
  end.

(** [DELETE /api/words/:id]; [this.changes] is the number of rows the
    DELETE removed. *)
Definition delete_word (id : Z) (st : wstore) : wstore * dresp :=
  let st' := {| words := filter (fun w => negb (w_id w =? id)) (words st);
                w_next_id := w_next_id st |} in
  let changes := (List.length (words st) - List.length (words st'))%nat in
  if Nat.ltb 0 changes then (st', DMessage "Word deleted successfully")
  else (st', DErr 404).

(** [DELETE /api/words]. *)
Definition clear_words (st : wstore) : wstore * dresp :=
  ({| words := []; w_next_id := w_next_id st |},
   DMessage "All words deleted successfully").

(** The characters of a [string] are read as the code points
    U+0000..U+00FF. *)
Definition code (c : Ascii.ascii) : nat := Ascii.nat_of_ascii c.

(** StrWhiteSpaceChar of [parseInt] in that range. *)
Definition str_ws (c : Ascii.ascii) : bool :=
  let n := code c in
  (Nat.leb 9 n && Nat.leb n 13) || Nat.eqb n 32 || Nat.eqb n 160.

Fixpoint skip_ws (s : string) : string :=
  match s with
  | String c t => if str_ws c then skip_ws t else s
  | EmptyString => EmptyString
  end.

(** The value of a digit in radices up to 36. *)
Definition digit_val (c : Ascii.ascii) : option Z :=
  let n := code c in
  if Nat.leb 48 n && Nat.leb n 57 then Some (Z.of_nat n - 48)
  else if Nat.leb 97 n && Nat.leb n 122 then Some (Z.of_nat n - 87)
  else if Nat.leb 65 n && Nat.leb n 90 then Some (Z.of_nat n - 55)
  else None.

(** The longest prefix of radix-[r] digits: its value, and whether it
    is non-empty. *)
Fixpoint take_digits (r : Z) (s : string) (acc : Z) (any : bool) : Z * bool :=
  match s with
  | String c t =>
      match digit_val c with
      | Some v => if v <? r then take_digits r t (acc * r + v) true else (acc, any)
      | None => (acc, any)
      end
  | EmptyString => (acc, any)
  end.

(** [parseInt(s)] without radix (ECMA-262 §19.2.5): leading white
    space, a sign, a [0x]/[0X] prefix for radix 16, the longest digit
    prefix, NaN when it is empty; the integer is rounded to the nearest
    Number (a negative sign on 0 gives -0). *)
Definition parse_int (s : string) : float :=
  let s1 := skip_ws s in
  let '(neg, s2) :=
    match s1 with
    | String c t =>
        if Ascii.eqb c "-"%char then (true, t)
        else if Ascii.eqb c "+"%char then (false, t) else (false, s1)
    | EmptyString => (false, s1)
    end in
  let '(r, s3) :=
    match s2 with
    | String c (String x t) =>
        if Ascii.eqb c "0"%char && (Ascii.eqb x "x"%char || Ascii.eqb x "X"%char)
        then (16, t) else (10, s2)
    | _ => (10, s2)
    end in
  let '(v, any) := take_digits r s3 0 false in
  if any then SF2Prim (binary_normalize prec emax (if neg then - v else v) 0 neg)
  else nan.

(** [s.split(sep)] with a one-character separator. *)
Fixpoint split_on (sep : Ascii.ascii) (s : string) : list string :=
  match s with
  | EmptyString => [EmptyString]
  | String c t =>
      if Ascii.eqb c sep then EmptyString :: split_on sep t
      else match split_on sep t with
           | w :: ws => String c w :: ws
           | [] => [String c EmptyString]
           end
  end.

(** SQLite's comparison of the INTEGER [id] with a bound Number:
    numeric and exact. *)
Definition num_eq_int (x : float) (n : Z) : bool :=
  match Prim2SF x with
  | S754_zero _ => n =? 0
  | S754_finite s m e =>
      let v := if 0 <=? e then Z.pos m * 2 ^ e else Z.pos m / 2 ^ (- e) in
      let exact := if 0 <=? e then true else Z.pos m mod 2 ^ (- e) =? 0 in
      exact && (n =? (if s then - v else v))
  | _ => false
  end.

(** [DELETE /api/words/batch/:ids]:
    [ids.split(',').map(id => parseInt(id)).filter(id => !isNaN(id))],
    400 when nothing is left, else [DELETE ... WHERE id IN (...)]. *)
Definition batch_delete (ids : string) (st : wstore) : wstore * dresp :=
  let idArray := filter (fun x => negb (is_nan x)) (map parse_int (split_on ","%char ids)) in
  match idArray with
  | [] => (st, DErr 400)
  | _ =>
      let st' := {| words := filter (fun w => negb (existsb (fun x => num_eq_int x (w_id w)) idArray))
                                    (words st);
                    w_next_id := w_next_id st |} in
      (st', DDeleted (List.length (words st) - List.length (words st')))
  end.

(** [String.prototype.toLowerCase] on U+0000..U+00FF: A-Z and
    U+00C0..U+00DE except U+00D7 map to the code point 32 above. *)
Definition js_lower_char (c : Ascii.ascii) : Ascii.ascii :=
  let n := code c in
  if (Nat.leb 65 n && Nat.leb n 90) || (Nat.leb 192 n && Nat.leb n 222 && negb (Nat.eqb n 215))
  then Ascii.ascii_of_nat (n + 32) else c.

Definition js_to_lower (s : string) : string := string_of_list_ascii (map js_lower_char (list_ascii_of_string s)).

(** One character of a LIKE pattern against one of the text: equal, or
    both ASCII and equal up to case (SQLite's default, without ICU). *)
Definition like_eq (p c : Ascii.ascii) : bool :=
  Ascii.eqb p c ||
  (Nat.ltb (code p) 128 && Nat.ltb (code c) 128 && Ascii.eqb (sql_lower_ascii p) (sql_lower_ascii c)).

(** [text LIKE pattern] without ESCAPE: [%] any sequence, [_] any one
    character. *)
Fixpoint like (p s : list Ascii.ascii) : bool :=
  match p with
  | [] => match s with [] => true | _ => false end
  | c :: p' =>
      if Ascii.eqb c "%"%char then
        (fix star (s : list Ascii.ascii) : bool :=
           like p' s || match s with [] => false | _ :: t => star t end) s
      else if Ascii.eqb c "_"%char then
        match s with [] => false | _ :: t => like p' t end
      else
        match s with [] => false | c' :: t => like_eq c c' && like p' t end
  end.

(** [LOWER(field) LIKE pattern]; a NULL field gives NULL, which is
    falsy. *)
Definition like_field (f : option string) (pat : string) : bool :=
  match f with
  | Some v => like (list_ascii_of_string pat) (list_ascii_of_string (sql_lower v))
  | None => false
  end.

(** [GET /api/words/search/:query]: a full scan in rowid order. *)
Definition search_words (query : string) (st : wstore) : list word :=
  let pat := "%" ++ js_to_lower query ++ "%" in
  filter (fun w => like_field (Some (english w)) pat || like_field (Some (chinese w)) pat ||
                   like_field (example w) pat)
         (words st).

(** The answer of [GET /api/words/stats]. *)
Record stats := {
  total_words_count : nat;
  tested_words_count : nat;
  familiar_words_count : nat;
  exposure_rate : float;
  familiarity_rate : float
}.

Definition word_stats (st : wstore) : stats :=
  let total := List.length (words st) in
  let tested := List.length (filter (fun w => 0 <? exposure w) (words st)) in
  let familiar := List.length (filter (fun w => 3 <=? familiarity w) (words st)) in
  {| total_words_count := total;
     tested_words_count := tested;
     familiar_words_count := familiar;
     exposure_rate :=
       if Nat.ltb 0 total
       then Submit.math_round ((Submit.num_of_nat tested / Submit.num_of_nat total) * 100)%float
       else 0%float;
     familiarity_rate :=
       if Nat.ltb 0 total
       then Submit.math_round ((Submit.num_of_nat familiar / Submit.num_of_nat total) * 100)%float
       else 0%float |}.

(** The requests that change [words], apart from [PUT /api/words/:id]
    and the two bulk inserts. *)
Inductive wop :=
| WPost (english chinese example : option string)
| WDelete (id : Z)
| WBatchDelete (ids : string)
| WClear
| WStats (id : Z) (isCorrect : bool).

Definition run_wop (op : wop) (st : wstore) : wstore :=
  match op with
  | WPost e c ex => fst (post_word e c ex st)
  | WDelete id => fst (delete_word id st)
  | WBatchDelete ids => fst (batch_delete ids st)
  | WClear => fst (clear_words st)
  | WStats id b => fst (update_stats id b st)
  end.

Definition empty_wstore : wstore := {| words := []; w_next_id := 1 |}.

Inductive wreach : wstore -> Prop :=
| wreach_init : wreach empty_wstore
| wreach_step : forall op st, wreach st -> wreach (run_wop op st).

End WordsApi.

(* ================================================================== *)
(** ** The mistakes list: [mistakes] joined with [words] *)
(* ================================================================== *)

Module MistakeList.

Import Mistakes Words.
Open Scope Z_scope.

(** Both tables; SQLite's [foreign_keys] pragma is off by default, so
    the [ON DELETE CASCADE] and [REFERENCES] clauses are not enforced. *)
Record db := {
  dwords : wstore;
  dmistakes : mstore
}.

(** A row of [SELECT m.*, w.english, w.chinese, w.example FROM mistakes m
    JOIN words w ON m.word_id = w.id]. *)
Record mistake_view := {
  mv_mistake : mistake;
  mv_english : string;
  mv_chinese : string;
  mv_example : option string
}.

Definition mistakes_join (d : db) : list mistake_view :=
  flat_map (fun r =>
              map (fun w => {| mv_mistake := r; mv_english := english w;
                               mv_chinese := chinese w; mv_example := example w |})
                  (filter (fun w => w_id w =? m_word_id r) (words (dwords d))))
           (rows (dmistakes d)).

(** [GET /api/mistakes] answers the join ordered by [added_date DESC]:
    some permutation of it. *)
Definition get_mistakes (d : db) (out : list mistake_view) : Prop :=
  Permutation.Permutation out (mistakes_join d).

(** The word and mistake handlers on the two tables. *)
Definition db_delete_word (id : Z) (d : db) : db :=
  {| dwords := fst (WordsApi.delete_word id (dwords d)); dmistakes := dmistakes d |}.

Definition db_post_mistakes (word_id : option Z) (d : db) : db * mresp :=
  let '(m, r) := post_mistakes word_id (dmistakes d) in
  ({| dwords := dwords d; dmistakes := m |}, r).

End MistakeList.

(* ================================================================== *)
(** ** Reading passages: [GET /api/reading/passage/:id] *)
(* ================================================================== *)

Module ReadingApi.

Import JsRegex Importer.
Open Scope Z_scope.

Inductive presp :=
| PErr (status : Z)
| PFound (passage : passage_row) (questions : list question_row).

(** [GET /api/reading/passage/:id] (and [/api/reading-passages/:id],
    which sends the same data flattened): the passage and its questions
    as read, then [exposure = exposure + 1] without waiting. *)
Definition get_passage (id : Z) (db : rstore) : rstore * presp :=
  match find (fun p => rp_id p =? id) (passages db) with
  | None => (db, PErr 404)
  | Some p =>
      let qs := filter (fun q => rq_passage_id q =? id) (questions db) in
      ({| passages := map (fun p' => if rp_id p' =? id
                                     then {| rp_id := rp_id p'; rp_title := rp_title p';
                                             rp_content := rp_content p';
                                             rp_exposure := rp_exposure p' + 1 |}
                                     else p') (passages db);
          questions := questions db;
          next_passage_id := next_passage_id db;
          next_question_id := next_question_id db |},
       PFound p qs)
  end.




End ReadingApi.

(* ================================================================== *)
(** ** Proofs: mistake tracker *)
(* ================================================================== *)

Module MistakesFacts.
Import Mistakes.
Open Scope Z_scope.

(** *** Facts about the table operations *)

Lemma filter_map_comm {A} (p : A -> bool) (g : A -> A) (l : list A) :
  (forall x, p (g x) = p x) -> filter p (map g l) = map g (filter p l).
Proof.
  intros Hp; induction l as [|x l IH]; simpl; [reflexivity|].
  rewrite Hp; destruct (p x); simpl; rewrite IH; reflexivity.
Qed.

Lemma filter_comm {A} (p q : A -> bool) (l : list A) :
  filter p (filter q l) = filter q (filter p l).
Proof.
  induction l as [|x l IH]; simpl; [reflexivity|].
  destruct (q x) eqn:Hq, (p x) eqn:Hpx; simpl; rewrite ?Hq, ?Hpx, IH; reflexivity.
Qed.

Lemma nodup_map_filter {A B} (h : A -> B) (p : A -> bool) (l : list A) :
  NoDup (map h l) -> NoDup (map h (filter p l)).
Proof.
  induction l as [|x l IH]; simpl; intros Hnd; [constructor|].
  inversion Hnd as [|? ? Hnotin Hnd']; subst.
  destruct (p x); simpl; [|auto].
  constructor; [|auto].
  intros Hin; apply Hnotin.
  apply in_map_iff in Hin as (y & Hy & Hiny).
  apply filter_In in Hiny as [Hiny _].
  apply in_map_iff; eauto.
Qed.

Lemma nodup_id_eq (l : list mistake) (x y : mistake) :
  NoDup (map m_id l) -> In x l -> In y l -> m_id x = m_id y -> x = y.
Proof.
  induction l as [|z l IH]; simpl; [tauto|].
  intros Hnd Hx Hy Heq; inversion Hnd as [|? ? Hnotin Hnd']; subst.
  destruct Hx as [<-|Hx], Hy as [<-|Hy]; auto.
  - exfalso; apply Hnotin; rewrite Heq; apply in_map; exact Hy.
  - exfalso; apply Hnotin; rewrite <- Heq; apply in_map; exact Hx.
Qed.

Lemma map_update_id_notin (id : Z) (f : mistake -> mistake) (l : list mistake) :
  (forall x, In x l -> m_id x <> id) ->
  map (fun r => if m_id r =? id then f r else r) l = l.
Proof.
  intros H; induction l as [|x l IH]; simpl; [reflexivity|].
  rewrite (proj2 (Z.eqb_neq _ _) (H x (or_introl eq_refl))).
  rewrite IH; auto. intros y Hy; apply H; right; exact Hy.
Qed.

Lemma filter_delete_id_notin (id : Z) (l : list mistake) :
  (forall x, In x l -> m_id x <> id) ->
  filter (fun r => negb (m_id r =? id)) l = l.
Proof.
  intros H; induction l as [|x l IH]; simpl; [reflexivity|].
  rewrite (proj2 (Z.eqb_neq _ _) (H x (or_introl eq_refl))); simpl.
  rewrite IH; auto. intros y Hy; apply H; right; exact Hy.
Qed.

(** An update that keeps [word_id] acts on the rows of each word. *)
Lemma rows_of_update (w id : Z) (f : mistake -> mistake) (st : mstore) :
  (forall r, m_word_id (f r) = m_word_id r) ->
  rows_of w (update_where_id id f st)
  = map (fun r => if m_id r =? id then f r else r) (rows_of w st).
Proof.
  intros Hf; unfold rows_of, update_where_id; simpl.
  apply filter_map_comm; intros x; destruct (m_id x =? id); rewrite ?Hf; reflexivity.
Qed.

Lemma rows_of_delete (w id : Z) (st : mstore) :
  rows_of w (delete_where_id id st)
  = filter (fun r => negb (m_id r =? id)) (rows_of w st).
Proof. unfold rows_of, delete_where_id; simpl; apply filter_comm. Qed.

Lemma rows_of_insert (w w' : Z) (st : mstore) :
  rows_of w (fst (insert_mistake w' st))
  = rows_of w st ++ (if w' =? w then
      [{| m_id := next_id st; m_word_id := w'; mistake_count := 1;
          correct_streak := 0 |}] else []).
Proof.
  unfold rows_of, insert_mistake; simpl; rewrite filter_app; simpl.
  destruct (w' =? w); reflexivity.
Qed.

Lemma select_single (w : Z) (st : mstore) (r : mistake) :
  rows_of w st = [r] -> select_by_word w st = Some r.
Proof.
  unfold rows_of, select_by_word; destruct st as [l n]; simpl.
  induction l as [|x l IH]; simpl; [discriminate|].
  destruct (m_word_id x =? w); [intros H; inversion H; reflexivity|exact IH].
Qed.

Lemma select_none (w : Z) (st : mstore) :
  rows_of w st = [] -> select_by_word w st = None.
Proof.
  unfold rows_of, select_by_word; destruct st as [l n]; simpl.
  induction l as [|x l IH]; simpl; [reflexivity|].
  destruct (m_word_id x =? w); [discriminate|exact IH].
Qed.

Lemma in_rows_of (w : Z) (st : mstore) (x : mistake) :
  In x (rows_of w st) <-> In x (rows st) /\ m_word_id x = w.
Proof. unfold rows_of; rewrite filter_In, Z.eqb_eq; tauto. Qed.

(** Rows of other words: with unique ids, an update or delete by the id
    of a row of [w] leaves them alone. *)
Lemma other_word_ids (w w' : Z) (st : mstore) (r : mistake) :
  NoDup (map m_id (rows st)) -> In r (rows st) -> m_word_id r = w -> w' <> w ->
  forall x, In x (rows_of w' st) -> m_id x <> m_id r.
Proof.
  intros Hnd Hr Hw Hne x Hx Heq; apply in_rows_of in Hx as [Hx Hxw].
  pose proof (nodup_id_eq _ _ _ Hnd Hx Hr Heq); subst; congruence.
Qed.

(** *** Preservation of the row bounds and of one row per word *)

Lemma nodup_snoc {A} (l : list A) (a : A) :
  NoDup l -> ~ In a l -> NoDup (l ++ [a]).
Proof.
  induction l as [|x l IH]; simpl; intros Hnd Hnin.
  - constructor; [tauto|constructor].
  - inversion Hnd as [|? ? Hx Hnd']; subst.
    constructor.
    + rewrite in_app_iff; simpl; intros [H|[H|H]]; [tauto|apply Hnin; left; auto|tauto].
    + apply IH; auto.
Qed.

Lemma forall_filter {A} (P : A -> Prop) (p : A -> bool) (l : list A) :
  Forall P l -> Forall P (filter p l).
Proof.
  rewrite !Forall_forall; intros H x Hx; apply filter_In in Hx; apply H; tauto.
Qed.

Lemma select_in (w : Z) (st : mstore) (r : mistake) :
  select_by_word w st = Some r -> In r (rows st) /\ m_word_id r = w.
Proof.
  unfold select_by_word; intros H; apply find_some in H as [H1 H2].
  apply Z.eqb_eq in H2; auto.
Qed.

Lemma bounds_update (id : Z) (f : mistake -> mistake) (st : mstore) :
  (forall r, row_ok r -> row_ok (f r)) ->
  Forall row_ok (rows st) -> Forall row_ok (rows (update_where_id id f st)).
Proof.
  intros Hf H; unfold update_where_id; simpl.
  apply Forall_map; eapply Forall_impl; [|exact H].
  intros r Hr; destruct (m_id r =? id); auto.
Qed.

Lemma bounds_delete (id : Z) (st : mstore) :
  Forall row_ok (rows st) -> Forall row_ok (rows (delete_where_id id st)).
Proof. apply forall_filter. Qed.

Lemma bounds_insert (w : Z) (st : mstore) :
  Forall row_ok (rows st) -> Forall row_ok (rows (fst (insert_mistake w st))).
Proof.
  intros H; simpl; apply Forall_app; split; [exact H|].
  constructor; [unfold row_ok; simpl; lia|constructor].
Qed.

(** The row a pending request has read obeys the bounds. *)
Definition found_ok (found : option mistake) : Prop :=
  match found with Some r => row_ok r | None => True end.

Definition pending_ok (p : pending) : Prop :=
  match p with PAdd _ f => found_ok f | PCorrect _ f => found_ok f end.

Lemma bounds_add_write (w : Z) (found : option mistake) (st : mstore) :
  Forall row_ok (rows st) -> Forall row_ok (rows (fst (add_write w found st))).
Proof.
  intros H; destruct found as [row|]; simpl.
  - apply bounds_update; [|exact H].
    intros r [Hs Hc]; unfold row_ok; simpl; lia.
  - apply bounds_insert; exact H.
Qed.

Lemma bounds_correct_write (w : Z) (found : option mistake) (st : mstore) :
  found_ok found ->
  Forall row_ok (rows st) -> Forall row_ok (rows (fst (correct_write w found st))).
Proof.
  intros Hf H; destruct found as [row|]; simpl; [|exact H].
  destruct (2 <=? correct_streak row + 1) eqn:E; simpl.
  - apply bounds_delete; exact H.
  - apply Z.leb_gt in E; destruct Hf as [Hs Hc].
    apply bounds_update; [|exact H].
    intros r [Hs' Hc']; unfold row_ok; simpl; lia.
Qed.

Lemma select_ok (w : Z) (st : mstore) :
  Forall row_ok (rows st) -> found_ok (select_by_word w st).
Proof.
  intros H; destruct (select_by_word w st) as [r|] eqn:E; simpl; [|exact I].
  apply select_in in E as [Hin _]; rewrite Forall_forall in H; auto.
Qed.

Lemma bounds_run_op (op : mop) (st : mstore) :
  Forall row_ok (rows st) -> Forall row_ok (rows (run_op op st)).
Proof.
  intros H; destruct op as [[w|]|w|id|]; simpl.
  - unfold post_mistakes; destruct (w =? 0); [exact H|].
    apply bounds_add_write; exact H.
  - exact H.
  - unfold post_mistakes_correct; apply bounds_correct_write;
      [apply select_ok|]; exact H.
  - unfold delete_mistake.
    destruct (Nat.eqb _ _); apply bounds_delete; exact H.
  - constructor.
Qed.

Lemma conc_bounds (st : mstore) (ps : list pending) :
  conc_reachable st ps -> Forall row_ok (rows st) /\ Forall pending_ok ps.
Proof.
  induction 1 as [| st ps w _ [IH1 IH2] _ | st ps w _ [IH1 IH2]
                 | st ps1 p ps2 _ [IH1 IH2] | st ps op _ [IH1 IH2] _].
  - split; constructor.
  - split; [exact IH1|constructor; [apply select_ok; exact IH1|exact IH2]].
  - split; [exact IH1|constructor; [apply select_ok; exact IH1|exact IH2]].
  - apply Forall_app in IH2 as [Hps1 Hps2]; inversion Hps2 as [|? ? Hp Hps2']; subst.
    split; [|apply Forall_app; auto].
    destruct p as [w f|w f]; simpl.
    + apply bounds_add_write; exact IH1.
    + apply bounds_correct_write; auto.
  - split; [apply bounds_run_op; exact IH1|exact IH2].
Qed.

Lemma words_update (id : Z) (f : mistake -> mistake) (st : mstore) :
  (forall r, m_word_id (f r) = m_word_id r) ->
  map m_word_id (rows (update_where_id id f st)) = map m_word_id (rows st).
Proof.
  intros Hf; unfold update_where_id; simpl; rewrite map_map.
  apply map_ext; intros r; destruct (m_id r =? id); auto.
Qed.

Lemma seq_inv_run_op (op : mop) (st : mstore) :
  mistakes_inv st -> mistakes_inv (run_op op st).
Proof.
  intros [Hnd Hb]; split; [|apply bounds_run_op; exact Hb].
  unfold one_row_per_word in *.
  destruct op as [[w|]|w|id|]; simpl.
  - unfold post_mistakes; destruct (w =? 0); [exact Hnd|].
    destruct (select_by_word w st) as [row|] eqn:E; cbn [add_write fst].
    + rewrite words_update; [exact Hnd|reflexivity].
    + simpl; rewrite map_app; simpl; apply nodup_snoc; [exact Hnd|].
      intros Hin; apply in_map_iff in Hin as (x & Hx & Hinx).
      unfold select_by_word in E; pose proof (find_none _ _ E x Hinx) as Hf.
      simpl in Hf; rewrite Hx, Z.eqb_refl in Hf; discriminate.
  - exact Hnd.
  - unfold post_mistakes_correct, correct_write.
    destruct (select_by_word w st) as [row|]; cbn [fst]; [|exact Hnd].
    destruct (2 <=? correct_streak row + 1); cbn [fst].
    + apply nodup_map_filter; exact Hnd.
    + rewrite words_update; [exact Hnd|reflexivity].
  - unfold delete_mistake; destruct (Nat.eqb _ _); simpl;
      apply nodup_map_filter; exact Hnd.
  - constructor.
Qed.

(** *** One request on a word that has exactly one row, or none *)

Definition with_streak (r : mistake) (s : Z) : mistake :=
  {| m_id := m_id r; m_word_id := m_word_id r;
     mistake_count := mistake_count r; correct_streak := s |}.

Lemma correct_on_single (st : mstore) (w : Z) (r : mistake) :
  NoDup (map m_id (rows st)) -> rows_of w st = [r] ->
  let st' := fst (post_mistakes_correct w st) in
  (2 <= correct_streak r + 1 -> rows_of w st' = []) /\
  (correct_streak r + 1 < 2 ->
     rows_of w st' = [with_streak r (correct_streak r + 1)]) /\
  (forall w', w' <> w -> rows_of w' st' = rows_of w' st).
Proof.
  intros Hnd H1 st'; subst st'.
  assert (Hr : In r (rows st) /\ m_word_id r = w)
    by (apply in_rows_of; rewrite H1; left; reflexivity).
  unfold post_mistakes_correct; rewrite (select_single _ _ _ H1); cbn [correct_write].
  destruct (2 <=? correct_streak r + 1) eqn:E; cbn [fst].
  - apply Z.leb_le in E; split; [|split]; [intros _|intros; lia|intros w' Hne].
    + rewrite rows_of_delete, H1; simpl; rewrite Z.eqb_refl; reflexivity.
    + rewrite rows_of_delete; apply filter_delete_id_notin.
      exact (other_word_ids w w' st r Hnd (proj1 Hr) (proj2 Hr) Hne).
  - apply Z.leb_gt in E; split; [|split]; [intros; lia|intros _|intros w' Hne].
    + rewrite rows_of_update by reflexivity; rewrite H1; simpl.
      rewrite Z.eqb_refl; reflexivity.
    + rewrite rows_of_update by reflexivity; apply map_update_id_notin.
      exact (other_word_ids w w' st r Hnd (proj1 Hr) (proj2 Hr) Hne).
Qed.

Definition new_row (st : mstore) (w : Z) : mistake :=
  {| m_id := next_id st; m_word_id := w; mistake_count := 1; correct_streak := 0 |}.

Lemma add_on_none (st : mstore) (w : Z) :
  w <> 0 -> rows_of w st = [] ->
  let '(st', resp) := post_mistakes (Some w) st in
  rows_of w st' = [new_row st w] /\ resp = MRow (new_row st w) /\
  (forall w', w' <> w -> rows_of w' st' = rows_of w' st).
Proof.
  intros Hw H0; unfold post_mistakes.
  rewrite (proj2 (Z.eqb_neq _ _) Hw), (select_none _ _ H0); cbn [add_write].
  change (insert_mistake w st) with (fst (insert_mistake w st), next_id st); cbv iota.
  rewrite !rows_of_insert, Z.eqb_refl, H0; repeat split.
  intros w' Hne; rewrite rows_of_insert, (proj2 (Z.eqb_neq w w')) by congruence; apply app_nil_r.
Qed.

Lemma add_on_single (st : mstore) (w : Z) (r : mistake) :
  w <> 0 -> NoDup (map m_id (rows st)) -> rows_of w st = [r] ->
  let '(st', resp) := post_mistakes (Some w) st in
  let r' := {| m_id := m_id r; m_word_id := w;
               mistake_count := mistake_count r + 1; correct_streak := 0 |} in
  rows_of w st' = [r'] /\ resp = MRow r' /\
  (forall w', w' <> w -> rows_of w' st' = rows_of w' st).
Proof.
  intros Hw Hnd H1.
  assert (Hr : In r (rows st) /\ m_word_id r = w)
    by (apply in_rows_of; rewrite H1; left; reflexivity).
  unfold post_mistakes.
  rewrite (proj2 (Z.eqb_neq _ _) Hw), (select_single _ _ _ H1); cbn [add_write].
  repeat split.
  - rewrite rows_of_update by reflexivity; rewrite H1; simpl.
    rewrite Z.eqb_refl; destruct Hr as [_ <-]; reflexivity.
  - intros w' Hne; rewrite rows_of_update by reflexivity; apply map_update_id_notin.
    exact (other_word_ids w w' st r Hnd (proj1 Hr) (proj2 Hr) Hne).
Qed.

(** C1. For a Flagged word (it has its row [r]), a correct answer
    increments [correct_streak]; when the streak reaches the threshold 2
    the row is deleted (the word is Normal again), otherwise the row
    stays with the new streak; rows of other words are untouched. From
    Normal, one wrong answer gives a row with [mistake_count = 1],
    [correct_streak = 0], and two correct answers then remove it. *)
Theorem mistake_promotion :
  (forall (st : mstore) (w : Z) (r : mistake),
     NoDup (map m_id (rows st)) -> rows_of w st = [r] ->
     let st' := fst (post_mistakes_correct w st) in
     (2 <= correct_streak r + 1 -> rows_of w st' = []) /\
     (correct_streak r + 1 < 2 ->
        rows_of w st' = [with_streak r (correct_streak r + 1)]) /\
     (forall w', w' <> w -> rows_of w' st' = rows_of w' st)) /\
  (forall (st : mstore) (w : Z),
     w <> 0 -> rows_of w st = [] ->
     let st1 := run_op (OpAdd (Some w)) st in
     let st2 := run_op (OpCorrect w) st1 in
     let st3 := run_op (OpCorrect w) st2 in
     rows_of w st1 = [new_row st w] /\
     rows_of w st2 = [with_streak (new_row st w) 1] /\
     rows_of w st3 = []).
Proof.
  split; [exact correct_on_single|].
  intros st w Hw H0 st1 st2 st3.
  assert (H1 : rows_of w st1 = [new_row st w]).
  { subst st1; cbn [run_op]; pose proof (add_on_none st w Hw H0) as H.
    destruct (post_mistakes (Some w) st) as [st' resp]; cbn [fst]; tauto. }
  (* [st1] may hold rows of other words with any ids; only the rows of
     [w] matter for the two correct answers. *)
  assert (Hs1 : select_by_word w st1 = Some (new_row st w)) by (apply select_single; exact H1).
  assert (H2 : rows_of w st2 = [with_streak (new_row st w) 1]).
  { subst st2; cbn [run_op]; unfold post_mistakes_correct; rewrite Hs1.
    assert (E : (2 <=? correct_streak (new_row st w) + 1) = false) by reflexivity.
    unfold correct_write; rewrite E; cbn [fst].
    rewrite rows_of_update by reflexivity; rewrite H1; simpl; rewrite Z.eqb_refl; reflexivity. }
  split; [exact H1|split; [exact H2|]].
  subst st3; cbn [run_op]; unfold post_mistakes_correct; rewrite (select_single _ _ _ H2).
  assert (E : (2 <=? correct_streak (with_streak (new_row st w) 1) + 1) = true) by reflexivity.
  unfold correct_write; rewrite E; cbn [fst].
  rewrite rows_of_delete, H2; simpl; rewrite Z.eqb_refl; reflexivity.
Qed.

Definition sample_store : mstore :=
  {| rows := [{| m_id := 1; m_word_id := 7; mistake_count := 2; correct_streak := 1 |};
              {| m_id := 2; m_word_id := 9; mistake_count := 1; correct_streak := 0 |}];
     next_id := 3 |}.

Lemma mistake_promotion_witness :
  (NoDup (map m_id (rows sample_store)) /\
   rows_of 9 sample_store = [{| m_id := 2; m_word_id := 9; mistake_count := 1; correct_streak := 0 |}] /\
   rows_of 9 (fst (post_mistakes_correct 9 sample_store)) =
     [{| m_id := 2; m_word_id := 9; mistake_count := 1; correct_streak := 1 |}]) /\
  ((4 : Z) <> 0 /\ rows_of 4 sample_store = [] /\
   rows_of 4 (run_op (OpCorrect 4) (run_op (OpCorrect 4) (run_op (OpAdd (Some 4)) sample_store))) = []).
Proof.
  assert (Hnd : NoDup (map m_id (rows sample_store))) by (simpl; repeat constructor; simpl; lia).
  split; split; [exact Hnd| |lia|].
  - split; [reflexivity|].
    refine (proj1 (proj2 (proj1 mistake_promotion sample_store 9 _ Hnd eq_refl)) _); simpl; lia.
  - split; [reflexivity|].
    exact (proj2 (proj2 (proj2 mistake_promotion sample_store 4 ltac:(lia) eq_refl))).
Defined.

(** C2. A wrong answer ([POST /api/mistakes] with a [word_id]): a Normal
    word gets a new row with [mistake_count = 1], [correct_streak = 0];
    a Flagged word's row gets [mistake_count + 1] and [correct_streak]
    reset to 0. Rows of other words are untouched. *)
Theorem wrong_answer_flags :
  (forall (st : mstore) (w : Z), w <> 0 -> rows_of w st = [] ->
     let '(st', resp) := post_mistakes (Some w) st in
     rows_of w st' = [new_row st w] /\ resp = MRow (new_row st w) /\
     (forall w', w' <> w -> rows_of w' st' = rows_of w' st)) /\
  (forall (st : mstore) (w : Z) (r : mistake),
     w <> 0 -> NoDup (map m_id (rows st)) -> rows_of w st = [r] ->
     let '(st', resp) := post_mistakes (Some w) st in
     let r' := {| m_id := m_id r; m_word_id := w;
                  mistake_count := mistake_count r + 1; correct_streak := 0 |} in
     rows_of w st' = [r'] /\ resp = MRow r' /\
     (forall w', w' <> w -> rows_of w' st' = rows_of w' st)).
Proof. split; [exact add_on_none|exact add_on_single]. Qed.

Lemma wrong_answer_flags_witness :
  rows_of 7 (fst (post_mistakes (Some 7) sample_store)) =
    [{| m_id := 1; m_word_id := 7; mistake_count := 3; correct_streak := 0 |}] /\
  rows_of 5 (fst (post_mistakes (Some 5) sample_store)) =
    [{| m_id := 3; m_word_id := 5; mistake_count := 1; correct_streak := 0 |}].
Proof.
  assert (Hnd : NoDup (map m_id (rows sample_store))) by (simpl; repeat constructor; simpl; lia).
  split.
  - pose proof (proj2 wrong_answer_flags sample_store 7
                  {| m_id := 1; m_word_id := 7; mistake_count := 2; correct_streak := 1 |}
                  ltac:(lia) Hnd eq_refl) as H.
    destruct (post_mistakes (Some 7) sample_store); exact (proj1 H).
  - pose proof (proj1 wrong_answer_flags sample_store 5 ltac:(lia) eq_refl) as H.
    destruct (post_mistakes (Some 5) sample_store); exact (proj1 H).
Defined.

(** C3 (as the code has it). Every row keeps [correct_streak] in [0, 2)
    and [mistake_count >= 1] in every reachable state, also when the
    read and the write of concurrent requests interleave; at most one
    row per [word_id] holds when requests are served one at a time. *)
Theorem mistakes_invariant :
  (forall st, seq_reachable st -> mistakes_inv st) /\
  (forall st ps, conc_reachable st ps -> Forall row_ok (rows st)).
Proof.
  split.
  - induction 1 as [|op st _ IH].
    + split; constructor.
    + apply seq_inv_run_op; exact IH.
  - intros st ps H; apply (conc_bounds st ps H).
Qed.

(** C3 counterexample: two wrong answers for the same Normal word whose
    reads both run before either insert leave two rows for word 1. *)
Lemma mistakes_invariant_counterexample :
  exists st ps, conc_reachable st ps /\ ~ one_row_per_word st.
Proof.
  pose (r0 := conc_read_add _ _ 1 conc_init ltac:(lia)).
  pose (r1 := conc_read_add _ _ 1 r0 ltac:(lia)).
  pose (w1 := conc_write _ [] _ _ r1).
  pose (w2 := conc_write _ [] _ _ w1).
  eexists; eexists; split; [exact w2|].
  unfold one_row_per_word; simpl.
  intros Hnd; inversion Hnd as [|? ? Hnin _]; apply Hnin; left; reflexivity.
Qed.

End MistakesFacts.

(* ================================================================== *)
(** ** Proofs: word store *)
(* ================================================================== *)

Module WordsFacts.
Import Words.
Open Scope string_scope.
Open Scope Z_scope.

Lemma find_word_update (id id' : Z) (f : word -> word) (st : wstore) :
  (forall w, w_id (f w) = w_id w) ->
  find_word id' (update_word_where_id id f st)
  = option_map (fun w => if w_id w =? id then f w else w) (find_word id' st).
Proof.
  intros Hf; unfold find_word, update_word_where_id; simpl.
  induction (words st) as [|x l IH]; simpl; [reflexivity|].
  destruct (w_id x =? id) eqn:E1; rewrite ?Hf;
    destruct (w_id x =? id') eqn:E2; simpl; rewrite ?E1; auto.
Qed.

(** C7. [update-stats] on an existing word adds 1 to [exposure], adds 1
    to [familiarity] exactly when [isCorrect] is true, changes no other
    field, and leaves the other words alone. *)
Theorem update_stats_counters :
  forall (st : wstore) (id : Z) (isCorrect : bool) (w : word),
    find_word id st = Some w ->
    let st' := fst (update_stats id isCorrect st) in
    find_word id st' =
      Some {| w_id := w_id w; english := english w; chinese := chinese w;
              example := example w;
              familiarity := if isCorrect then familiarity w + 1 else familiarity w;
              exposure := exposure w + 1 |} /\
    (forall id', id' <> id -> find_word id' st' = find_word id' st).
Proof.
  intros st id isCorrect w Hw st'; subst st'.
  assert (Hid : w_id w = id).
  { unfold find_word in Hw; apply find_some in Hw as [_ H]; apply Z.eqb_eq; exact H. }
  assert (Hother : forall id', id' <> id -> forall x, find_word id' st = Some x -> w_id x <> id).
  { intros id' Hne x Hx; unfold find_word in Hx; apply find_some in Hx as [_ H].
    apply Z.eqb_eq in H; congruence. }
  unfold update_stats; destruct isCorrect; cbn [fst]; split.
  - rewrite !find_word_update by reflexivity; rewrite Hw; simpl.
    unfold bump_exposure, bump_familiarity; cbn; rewrite Hid, Z.eqb_refl; cbn; rewrite ?Z.eqb_refl; reflexivity.
  - intros id' Hne; rewrite !find_word_update by reflexivity.
    destruct (find_word id' st) as [x|] eqn:E; simpl; [|reflexivity].
    rewrite (proj2 (Z.eqb_neq _ _) (Hother id' Hne x E)); simpl.
    unfold bump_exposure; cbn.
    rewrite (proj2 (Z.eqb_neq _ _) (Hother id' Hne x E)); reflexivity.
  - rewrite !find_word_update by reflexivity; rewrite Hw; simpl.
    unfold bump_exposure, bump_familiarity; cbn; rewrite Hid, Z.eqb_refl; cbn; rewrite ?Z.eqb_refl; reflexivity.
  - intros id' Hne; rewrite !find_word_update by reflexivity.
    destruct (find_word id' st) as [x|] eqn:E; simpl; [|reflexivity].
    rewrite (proj2 (Z.eqb_neq _ _) (Hother id' Hne x E)); reflexivity.
Qed.

Definition apple : word :=
  {| w_id := 1; english := "apple"; chinese := "pingguo"; example := None;
     familiarity := 2; exposure := 5 |}.

Definition pear : word :=
  {| w_id := 2; english := "pear"; chinese := "li"; example := None;
     familiarity := 0; exposure := 1 |}.

Definition two_words : wstore := {| words := [apple; pear]; w_next_id := 3 |}.

Lemma update_stats_counters_witness :
  find_word 1 two_words = Some apple /\
  find_word 1 (fst (update_stats 1 false two_words)) =
    Some {| w_id := 1; english := "apple"; chinese := "pingguo"; example := None;
            familiarity := 2; exposure := 6 |}.
Proof.
  split; [reflexivity|].
  exact (proj1 (update_stats_counters two_words 1 false apple eq_refl)).
Defined.

(** C9 (as the code runs). [PUT /api/words/:id] has no duplicate check:
    renaming word 2 to ["Apple"] while ["apple"] exists (a duplicate for
    [LOWER], the check [POST /api/words] makes before answering 409)
    succeeds and changes the row, and renaming it to ["apple"] exactly
    fails with the UNIQUE constraint's 500, not 409. An absent id still
    gives 404. *)
Theorem put_word_duplicate_not_conflict :
  post_word (Some "Apple") (Some "x") None two_words = (two_words, WErr 409) /\
  sql_lower "Apple" = sql_lower (english apple) /\
  put_word 2 (Some "Apple") (Some "x") None two_words =
    ({| words := [apple; {| w_id := 2; english := "Apple"; chinese := "x";
                            example := None; familiarity := 0; exposure := 1 |}];
        w_next_id := 3 |}, WFields 2 "Apple" "x" None) /\
  put_word 2 (Some "apple") (Some "x") None two_words = (two_words, WErr 500) /\
  put_word 9 (Some "kiwi") (Some "x") None two_words = (two_words, WErr 404).
Proof. repeat split; vm_compute; reflexivity. Qed.

End WordsFacts.

(* ================================================================== *)
(** ** Proofs: the regex matcher *)
(* ================================================================== *)

Module JsRegexFacts.
Import JsRegex.
Open Scope Z_scope.

(** The strings a regex can consume (lookahead and [$] consume none). *)
Fixpoint lang (r : re) (u : jstr) : Prop :=
  match r with
  | RChar p => exists c, u = [c] /\ p c = true
  | RSeq r1 r2 => exists u1 u2, u = u1 ++ u2 /\ lang r1 u1 /\ lang r2 u2
  | RAlt r1 r2 => lang r1 u \/ lang r2 u
  | RStar _ p => Forall (fun c => p c = true) u
  | RGroup _ r1 => lang r1 u
  | RLookahead _ => u = []
  | REnd => u = []
  end.

Definition consumed (s s' : mstate) (u : jstr) : Prop :=
  rest s = u ++ rest s' /\ pos s' = (pos s + List.length u)%nat.

Lemma consumed_nil (s : mstate) : consumed s s [].
Proof. split; simpl; [reflexivity|lia]. Qed.

Lemma star_m_sound (g : bool) (p : Z -> bool) (l : jstr) :
  forall s k x, rest s = l -> star_m g p l s k = Some x ->
  exists s' u, k s' = Some x /\ consumed s s' u /\ Forall (fun c => p c = true) u.
Proof.
  induction l as [|c t IH]; intros s k x Hl H; simpl in H.
  - exists s, []; split; [exact H|split; [apply consumed_nil|constructor]].
  - destruct (p c) eqn:Hp; [|exists s, []; split; [exact H|split; [apply consumed_nil|constructor]]].
    assert (Hrec : star_m g p t (advance s t) k = Some x ->
                   exists s' u, k s' = Some x /\ consumed s s' u /\
                                Forall (fun c0 => p c0 = true) u).
    { intros H'; destruct (IH (advance s t) k x eq_refl H') as (s' & u & Hk & [Hr Hpos] & Hu).
      exists s', (c :: u); split; [exact Hk|split; [split|constructor; auto]].
      - rewrite Hl; simpl in Hr |- *; rewrite Hr; reflexivity.
      - simpl in Hpos |- *; lia. }
    destruct g.
    + destruct (star_m true p t (advance s t) k) eqn:E; [injection H as <-; auto|].
      exists s, []; split; [exact H|split; [apply consumed_nil|constructor]].
    + destruct (k s) eqn:E.
      * injection H as <-; exists s, []; split; [exact E|split; [apply consumed_nil|constructor]].
      * auto.
Qed.

(** Soundness of the matcher: a success comes from a continuation call
    on a state reached by consuming a string of the regex's language. *)
Lemma m_sound (r : re) :
  forall s k x, m r s k = Some x ->
  exists s' u, k s' = Some x /\ consumed s s' u /\ lang r u.
Proof.
  induction r as [p|r1 IH1 r2 IH2|r1 IH1 r2 IH2|g p|n r1 IH|r1 IH|];
    intros s k x H; simpl in H.
  - destruct (rest s) as [|c t] eqn:Hr; [discriminate|].
    destruct (p c) eqn:Hp; [|discriminate].
    exists (advance s t), [c]; split; [exact H|split; [split|]].
    + rewrite Hr; reflexivity.
    + simpl; lia.
    + exists c; auto.
  - destruct (IH1 _ _ _ H) as (s1 & u1 & H1 & [Hr1 Hp1] & L1).
    destruct (IH2 _ _ _ H1) as (s2 & u2 & H2 & [Hr2 Hp2] & L2).
    exists s2, (u1 ++ u2); split; [exact H2|split; [split|]].
    + rewrite Hr1, Hr2, app_assoc; reflexivity.
    + rewrite Hp2, Hp1, length_app; lia.
    + exists u1, u2; auto.
  - destruct (m r1 s k) eqn:E.
    + injection H as <-; destruct (IH1 _ _ _ E) as (s' & u & ? & ? & ?).
      exists s', u; simpl; auto.
    + destruct (IH2 _ _ _ H) as (s' & u & ? & ? & ?); exists s', u; simpl; auto.
  - apply (star_m_sound g p (rest s) s k x eq_refl H).
  - destruct (IH _ _ _ H) as (s' & u & Hk & [Hr Hp] & L).
    eexists; exists u; split; [exact Hk|split; [split|exact L]]; simpl; auto.
  - destruct (m r1 s (fun s' => Some s')); [|discriminate].
    exists s, []; split; [exact H|split; [apply consumed_nil|reflexivity]].
  - destruct (rest s); [|discriminate].
    exists s, []; split; [exact H|split; [apply consumed_nil|reflexivity]].
Qed.

(** A star falls back on its continuation at the current state. *)
Lemma star_m_some (g : bool) (p : Z -> bool) (s : mstate) (k : mstate -> option mstate) :
  k s <> None -> star_m g p (rest s) s k <> None.
Proof.
  intros Hk; destruct (rest s) as [|c t]; simpl; [exact Hk|].
  destruct (p c); [|exact Hk].
  destruct g.
  - destruct (star_m true p t (advance s t) k); [discriminate|exact Hk].
  - destruct (k s); [discriminate|contradiction].
Qed.

Lemma alt_some_l (r1 r2 : re) (s : mstate) (k : mstate -> option mstate) :
  m r1 s k <> None -> m (RAlt r1 r2) s k <> None.
Proof. simpl; destruct (m r1 s k); [discriminate|tauto]. Qed.

Lemma alt_some_r (r1 r2 : re) (s : mstate) (k : mstate -> option mstate) :
  m r2 s k <> None -> m (RAlt r1 r2) s k <> None.
Proof. simpl; destruct (m r1 s k); [discriminate|tauto]. Qed.

Lemma lang_lit (l u : jstr) : lang (lit l) u -> u = l.
Proof.
  revert u; induction l as [|c l IH]; intros u H; simpl in H.
  - destruct u as [|x u]; [reflexivity|].
    inversion H; discriminate.
  - destruct H as (u1 & u2 & -> & (c' & -> & Hc) & H2).
    apply Z.eqb_eq in Hc; subst; rewrite (IH _ H2); reflexivity.
Qed.

Lemma m_lit (l : jstr) :
  forall s t k, rest s = l ++ t ->
  exists s', pos s' = (pos s + List.length l)%nat /\ rest s' = t /\ m (lit l) s k = k s'.
Proof.
  induction l as [|c l IH]; intros s t k Hr.
  - exists s; split; [simpl; lia|split; [exact Hr|]].
    cbn [lit fold_right m]; destruct (rest s); reflexivity.
  - change (m (lit (c :: l)) s k) with
      (match rest s with
       | c0 :: t0 => if Z.eqb c c0 then m (lit l) (advance s t0) k else None
       | [] => None
       end).
    rewrite Hr; cbn [app]; rewrite Z.eqb_refl.
    destruct (IH (advance s (l ++ t)) t k eq_refl) as (s' & Hp & Ht & Hm).
    exists s'; split; [simpl in Hp |- *; lia|split; [exact Ht|exact Hm]].
Qed.

Lemma nth_error_skipn' {A} (n i : nat) (l : list A) :
  nth_error (skipn n l) i = nth_error l (n + i).
Proof.
  revert l; induction n as [|n IH]; intros [|x l]; simpl; auto.
  destruct i; reflexivity.
Qed.

Lemma skipn_length_app {A} (x y : list A) : skipn (List.length x) (x ++ y) = y.
Proof. induction x as [|a x IH]; simpl; auto. Qed.

End JsRegexFacts.

(* ================================================================== *)
(** ** Proofs: reading importer *)
(* ================================================================== *)

Module ImporterFacts.
Import JsRegex Importer.
Open Scope Z_scope.

(** The input of the spec's example, with [\n] as code unit 10. *)
Definition example_import : jstr :=
  mark_text ++ [10] ++ js "Title" ++ [10] ++ js "Body" ++ [10] ++
  mark_questions ++ [10] ++ js "1. Q1? A. a B. b C. c" ++ [10] ++
  mark_answers ++ [10] ++ js "1. A".

Lemma parse_example :
  parse_import example_import =
  inr {| p_title := js "Title"; p_body := js "Body";
         p_questions := [{| questionText := js "Q1?"; optionA := js "a";
                            optionB := js "b"; optionC := js "c" |}];
         p_answers := [(js "1", js "A")] |}.
Proof. vm_compute; reflexivity. Qed.

(** C4. On the spec's example the importer succeeds and adds exactly one
    passage (title "Title", body "Body") and exactly one question
    ("Q1?", options "a", "b", "c", answer "A") of that passage, whatever
    the store held before. *)
Theorem import_example_persists :
  forall db : rstore,
    let '(db', res) := reading_import (Some example_import) db in
    res = ImportOk 1 1 /\
    passages db' = passages db ++
      [{| rp_id := next_passage_id db; rp_title := js "Title";
          rp_content := js "Body"; rp_exposure := 0 |}] /\
    questions db' = questions db ++
      [{| rq_id := next_question_id db; rq_passage_id := next_passage_id db;
          rq_question_text := js "Q1?"; rq_option_a := js "a";
          rq_option_b := js "b"; rq_option_c := js "c";
          rq_correct_answer := js "A" |}].
Proof.
  intros db; unfold reading_import.
  destruct example_import eqn:E; [discriminate|].
  rewrite <- E, parse_example; simpl.
  repeat split.
Qed.

(** Every successful parse has as many questions as answer keys, and
    these are the questions and answers parsed from sections 2 and 3. *)
Lemma parse_import_inr (c : jstr) (pi : parsed) :
  parse_import c = inr pi ->
  p_questions pi = parse_questions (trim (nth 2 (js_split marker_re c) [])) /\
  p_answers pi = fst (parse_answers (trim (nth 3 (js_split marker_re c) []))) /\
  List.length (p_questions pi) = List.length (p_answers pi).
Proof.
  unfold parse_import; cbv zeta; intros H.
  repeat (first [discriminate
                | match type of H with
                  | (if ?b then _ else _) = _ => destruct b eqn:?
                  | (match ?x with _ => _ end) = _ => destruct x eqn:?
                  end]).
  injection H as <-; cbn [p_questions p_answers].
  match goal with Hb : negb _ = false |- _ =>
    apply negb_false_iff, Nat.eqb_eq in Hb end.
  repeat match goal with Hx : parse_answers _ = _ |- _ => rewrite Hx end.
  repeat match goal with Hx : parse_questions _ = _ |- _ => rewrite Hx end.
  auto.
Qed.

(** C5. When the sections split and the number of parsed questions
    differs from the number of parsed answers (the keys of the
    [answers] object), the importer answers 400 and the store is
    unchanged. *)
Theorem import_count_mismatch_rejected :
  forall (c : jstr) (db : rstore),
    let parts := js_split marker_re c in
    (4 <= List.length parts)%nat ->
    List.length (parse_questions (trim (nth 2 parts []))) <>
      List.length (fst (parse_answers (trim (nth 3 parts [])))) ->
    exists e, reading_import (Some c) db = (db, ImportErr 400 e).
Proof.
  intros c db parts _ Hne; subst parts; unfold reading_import.
  destruct c as [|x c']; [eexists; reflexivity|].
  destruct (parse_import (x :: c')) as [e|pi] eqn:E; [eexists; reflexivity|].
  exfalso; apply parse_import_inr in E as (Hq & Ha & Hl).
  apply Hne; rewrite <- Hq, <- Ha; exact Hl.
Qed.

(** One question, two answers. *)
Definition mismatch_import : jstr :=
  mark_text ++ [10] ++ js "T" ++ [10] ++ js "B" ++ [10] ++
  mark_questions ++ [10] ++ js "1. Q A. a B. b C. c" ++ [10] ++
  mark_answers ++ [10] ++ js "1. A 2. B".

Lemma import_count_mismatch_rejected_witness :
  (4 <= List.length (js_split marker_re mismatch_import))%nat /\
  List.length (parse_questions (trim (nth 2 (js_split marker_re mismatch_import) []))) = 1%nat /\
  List.length (fst (parse_answers (trim (nth 3 (js_split marker_re mismatch_import) [])))) = 2%nat /\
  exists e, reading_import (Some mismatch_import) empty_rstore = (empty_rstore, ImportErr 400 e).
Proof.
  assert (H4 : (4 <= List.length (js_split marker_re mismatch_import))%nat)
    by (vm_compute; lia).
  assert (Hq : List.length (parse_questions (trim (nth 2 (js_split marker_re mismatch_import) []))) = 1%nat)
    by (vm_compute; reflexivity).
  assert (Ha : List.length (fst (parse_answers (trim (nth 3 (js_split marker_re mismatch_import) [])))) = 2%nat)
    by (vm_compute; reflexivity).
  split; [exact H4|split; [exact Hq|split; [exact Ha|]]].
  apply (import_count_mismatch_rejected mismatch_import empty_rstore H4).
  rewrite Hq, Ha; discriminate.
Defined.

(** Duplicate answer numbers collapse into one key of [answers]. *)
Example duplicate_answer_keys :
  fst (parse_answers (js "1. A 1. B")) = [(js "1", js "B")].
Proof. vm_compute; reflexivity. Qed.


(** The three markers, in the order of the alternation. *)
Definition markers : list jstr := [mark_text; mark_questions; mark_answers].

(** The three markers occur in this order. *)
Definition markers_in_order (c : jstr) : Prop :=
  exists a b d e, c = a ++ mark_text ++ b ++ mark_questions ++ d ++ mark_answers ++ e.

(** Sorted, non-overlapping marker occurrences at or after [q]. *)
Inductive occs (c : jstr) : nat -> list nat -> Prop :=
| occs_nil q : occs c q []
| occs_cons q j M t js :
    (q <= j)%nat -> In M markers -> skipn j c = M ++ t ->
    occs c (j + List.length M) js -> occs c q (j :: js).

Lemma lang_marker (u : jstr) :
  JsRegexFacts.lang marker_re u ->
  exists w1 M w2, In M markers /\ Forall (fun x => is_ws x = true) w1 /\
    Forall (fun x => is_ws x = true) w2 /\ u = w1 ++ M ++ w2.
Proof.
  assert (K : forall M, In M markers ->
    JsRegexFacts.lang (seq [ws_star; lit M; ws_star]) u ->
    exists w1 M' w2, In M' markers /\ Forall (fun x => is_ws x = true) w1 /\
      Forall (fun x => is_ws x = true) w2 /\ u = w1 ++ M' ++ w2).
  { intros M HM (u1 & u2 & -> & H1 & (v1 & v2 & -> & H2 & H3)).
    apply JsRegexFacts.lang_lit in H2; subst v1.
    exists u1, M, v2; auto. }
  intros [H|[H|H]]; (eapply K; [|exact H]); simpl; auto.
Qed.

Lemma marker_branch_some (M t : jstr) (s : mstate) :
  rest s = M ++ t -> m (seq [ws_star; lit M; ws_star]) s (fun s' => Some s') <> None.
Proof.
  intros Hr; cbn [seq m]; unfold ws_star at 1; cbn [m].
  apply JsRegexFacts.star_m_some.
  destruct (JsRegexFacts.m_lit M s t (fun s' => m ws_star s' (fun s0 => Some s0)) Hr)
    as (s' & _ & _ & ->).
  unfold ws_star; cbn [m]; apply JsRegexFacts.star_m_some; discriminate.
Qed.

(** A marker occurring at [j] makes the regex match at [j]. *)
Lemma marker_match_complete (c : jstr) (j : nat) (M t : jstr) :
  In M markers -> skipn j c = M ++ t -> match_at marker_re c j <> None.
Proof.
  intros HM Hs; unfold match_at, marker_re.
  pose proof (marker_branch_some M t {| pos := j; rest := skipn j c; caps := [] |} Hs) as B.
  destruct HM as [<-|[<-|[<-|[]]]].
  - apply JsRegexFacts.alt_some_l; exact B.
  - apply JsRegexFacts.alt_some_r, JsRegexFacts.alt_some_l; exact B.
  - apply JsRegexFacts.alt_some_r, JsRegexFacts.alt_some_r; exact B.
Qed.

(** A match at [q] is white space, one marker, white space. *)
Lemma marker_match_shape (c : jstr) (q : nat) (s : mstate) :
  match_at marker_re c q = Some s ->
  exists w1 M w2, In M markers /\ Forall (fun x => is_ws x = true) w1 /\
    Forall (fun x => is_ws x = true) w2 /\
    skipn q c = w1 ++ M ++ w2 ++ rest s /\
    pos s = (q + List.length w1 + List.length M + List.length w2)%nat.
Proof.
  unfold match_at; intros H.
  destruct (JsRegexFacts.m_sound _ _ _ _ H) as (s' & u & Hk & [Hr Hp] & L).
  injection Hk as ->.
  destruct (lang_marker u L) as (w1 & M & w2 & HM & H1 & H2 & ->).
  exists w1, M, w2; simpl in Hr, Hp.
  rewrite <- !app_assoc in Hr; rewrite !length_app in Hp.
  repeat split; auto; lia.
Qed.

Lemma marker_char (M M' : jstr) (i : nat) :
  In M markers -> In M' markers -> nth_error M i = Some (hd 0 M') ->
  i = 0%nat /\ M = M'.
Proof.
  intros HM HM'; destruct HM as [<-|[<-|[<-|[]]]]; destruct HM' as [<-|[<-|[<-|[]]]];
    destruct i as [|[|[|[|[|i]]]]]; vm_compute; intros H; try discriminate; auto.
Qed.

Lemma marker_hd (M : jstr) : In M markers -> M <> [] /\ is_ws (hd 0 M) = false.
Proof. intros [<-|[<-|[<-|[]]]]; split; try discriminate; reflexivity. Qed.

(** A marker occurring at or after a match either starts after the
    match or is the marker of the match. *)
Lemma marker_occ_cases (c : jstr) (q : nat) (s : mstate) (w1 M w2 : jstr)
    (j : nat) (M' t : jstr) :
  In M markers -> Forall (fun x => is_ws x = true) w1 ->
  Forall (fun x => is_ws x = true) w2 ->
  skipn q c = w1 ++ M ++ w2 ++ rest s ->
  pos s = (q + List.length w1 + List.length M + List.length w2)%nat ->
  (q <= j)%nat -> In M' markers -> skipn j c = M' ++ t ->
  (pos s <= j)%nat \/ (j = q + List.length w1 /\ M = M')%nat.
Proof.
  intros HM H1 H2 Hq Hp Hj HM' Ht.
  destruct (marker_hd M' HM') as [Hne Hws].
  assert (Hn : nth_error c j = Some (hd 0 M')).
  { replace j with (j + 0)%nat by lia.
    rewrite <- JsRegexFacts.nth_error_skipn', Ht.
    destruct M'; [congruence|reflexivity]. }
  replace j with (q + (j - q))%nat in Hn by lia.
  rewrite <- JsRegexFacts.nth_error_skipn', Hq in Hn.
  rewrite Forall_forall in H1, H2.
  destruct (Nat.lt_ge_cases (j - q) (List.length w1)) as [D1|D1].
  - rewrite nth_error_app1 in Hn by lia.
    apply nth_error_In, H1 in Hn; congruence.
  - rewrite nth_error_app2 in Hn by lia.
    destruct (Nat.lt_ge_cases (j - q - List.length w1) (List.length M)) as [D2|D2].
    + rewrite nth_error_app1 in Hn by lia.
      destruct (marker_char M M' _ HM HM' Hn) as [E1 E2].
      right; split; [lia|exact E2].
    + rewrite nth_error_app2 in Hn by lia.
      destruct (Nat.lt_ge_cases (j - q - List.length w1 - List.length M)
                                (List.length w2)) as [D3|D3].
      * rewrite nth_error_app1 in Hn by lia.
        apply nth_error_In, H2 in Hn; congruence.
      * left; lia.
Qed.

Lemma occs_reset (c : jstr) (q q' j : nat) (js : list nat) :
  occs c q (j :: js) -> (q' <= j)%nat -> occs c q' (j :: js).
Proof. intros H Hq; inversion H; subst; econstructor; eauto. Qed.

Lemma occs_cons_inv (c : jstr) (q j : nat) (js : list nat) :
  occs c q (j :: js) ->
  exists M t, (q <= j)%nat /\ In M markers /\ skipn j c = M ++ t /\
              occs c (j + List.length M) js.
Proof. intros H; inversion H; subst; eauto 7. Qed.

Lemma occ_in_range (c : jstr) (j : nat) (M t : jstr) :
  In M markers -> skipn j c = M ++ t -> (j < List.length c)%nat.
Proof.
  intros HM Ht; destruct (Nat.lt_ge_cases j (List.length c)) as [H|H]; [exact H|].
  rewrite skipn_all2 in Ht by exact H.
  destruct (marker_hd M HM) as [Hne _]; destruct M; [congruence|discriminate].
Qed.

Lemma split_loop_nonempty (c : jstr) (fuel : nat) :
  forall p q, (1 <= List.length (split_loop marker_re c p q fuel))%nat.
Proof.
  induction fuel as [|f IH]; intros p q; cbn [split_loop]; [simpl; lia|].
  destruct (Nat.ltb q (List.length c)); [|simpl; lia].
  destruct (match_at marker_re c q); [|apply IH].
  destruct (Nat.eqb _ p); [apply IH|simpl; specialize (IH (Nat.min (pos m0) (List.length c))
    (Nat.min (pos m0) (List.length c))); lia].
Qed.

(** Every occurrence counted by [occs] ends a segment of the split. *)
Lemma split_loop_occs (c : jstr) (fuel : nat) :
  forall p q js, (p <= q)%nat -> (List.length c - q < fuel)%nat -> occs c q js ->
  (S (List.length js) <= List.length (split_loop marker_re c p q fuel))%nat.
Proof.
  induction fuel as [|f IH]; intros p q js Hpq Hf Hocc; [lia|].
  cbn [split_loop].
  destruct (Nat.ltb q (List.length c)) eqn:Hq.
  - apply Nat.ltb_lt in Hq.
    destruct (match_at marker_re c q) as [s|] eqn:Hm.
    + destruct (marker_match_shape c q s Hm) as (w1 & M & w2 & HM & H1 & H2 & Hs & Hp).
      destruct (marker_hd M HM) as [HMne _].
      assert (Hlen : List.length (skipn q c) = List.length (w1 ++ M ++ w2 ++ rest s))
        by (rewrite Hs; reflexivity).
      rewrite length_skipn, !length_app in Hlen.
      assert (HMl : (1 <= List.length M)%nat) by (destruct M; [congruence|simpl; lia]).
      assert (He : Nat.min (pos s) (List.length c) = pos s) by lia.
      rewrite He.
      assert (Hne : Nat.eqb (pos s) p = false) by (apply Nat.eqb_neq; lia).
      rewrite Hne; cbn [List.length].
      destruct js as [|j js].
      * pose proof (split_loop_nonempty c f (pos s) (pos s)); simpl; lia.
      * destruct (occs_cons_inv c q j js Hocc) as (M' & t & Hqj & HM' & Ht & Hocc').
        destruct (marker_occ_cases c q s w1 M w2 j M' t HM H1 H2 Hs Hp Hqj HM' Ht)
          as [Hle|[Hj <-]].
        -- pose proof (IH (pos s) (pos s) (j :: js) (le_n _) ltac:(lia)
                         (occs_reset c q (pos s) j js Hocc Hle)).
           simpl in *; lia.
        -- assert (Hocc2 : occs c (pos s) js).
           { destruct js as [|j2 js2]; [constructor|].
             destruct (occs_cons_inv c _ j2 js2 Hocc') as (M2 & t2 & Hqj2 & HM2 & Ht2 & _).
             destruct (marker_occ_cases c q s w1 M w2 j2 M2 t2 HM H1 H2 Hs Hp
                         ltac:(lia) HM2 Ht2) as [Hle|[Hj2 _]]; [|lia].
             exact (occs_reset c _ (pos s) j2 js2 Hocc' Hle). }
           pose proof (IH (pos s) (pos s) js (le_n _) ltac:(lia) Hocc2).
           simpl; lia.
    + assert (Hocc2 : occs c (S q) js).
      { destruct js as [|j js]; [constructor|].
        destruct (occs_cons_inv c q j js Hocc) as (M' & t & Hqj & HM' & Ht & _).
        destruct (Nat.eq_dec j q) as [->|Hjq].
        - exfalso; exact (marker_match_complete c q M' t HM' Ht Hm).
        - exact (occs_reset c q (S q) j js Hocc ltac:(lia)). }
      apply IH; [lia|lia|exact Hocc2].
  - destruct js as [|j js]; [simpl; lia|].
    destruct (occs_cons_inv c q j js Hocc) as (M' & t & Hqj & HM' & Ht & _).
    pose proof (occ_in_range c j M' t HM' Ht).
    apply Nat.ltb_ge in Hq; lia.
Qed.

Lemma skipn_length_app' (x y z : jstr) : z = x ++ y -> skipn (List.length x) z = y.
Proof. intros ->; apply JsRegexFacts.skipn_length_app. Qed.

Lemma js_split_nonempty (r : re) (c : jstr) :
  c <> [] -> js_split r c = split_loop r c 0 0 (2 * List.length c + 2).
Proof. destruct c; [congruence|reflexivity]. Qed.

Lemma markers_in_order_split (c : jstr) :
  markers_in_order c -> (4 <= List.length (js_split marker_re c))%nat.
Proof.
  intros (a & b & d & e & Hc).
  assert (O1 : skipn (List.length a) c =
               mark_text ++ (b ++ mark_questions ++ d ++ mark_answers ++ e))
    by (apply skipn_length_app'; exact Hc).
  assert (O2 : skipn (List.length (a ++ mark_text ++ b)) c =
               mark_questions ++ (d ++ mark_answers ++ e))
    by (apply skipn_length_app'; rewrite Hc, <- !app_assoc; reflexivity).
  assert (O3 : skipn (List.length (a ++ mark_text ++ b ++ mark_questions ++ d)) c =
               mark_answers ++ e)
    by (apply skipn_length_app'; rewrite Hc, <- !app_assoc; reflexivity).
  assert (Hocc : occs c 0 [List.length a; List.length (a ++ mark_text ++ b);
                           List.length (a ++ mark_text ++ b ++ mark_questions ++ d)]).
  { rewrite !length_app in *.
    apply occs_cons with (M := mark_text) (t := b ++ mark_questions ++ d ++ mark_answers ++ e);
      [lia|simpl; auto|exact O1|].
    apply occs_cons with (M := mark_questions) (t := d ++ mark_answers ++ e);
      [simpl; lia|simpl; auto|exact O2|].
    apply occs_cons with (M := mark_answers) (t := e); [simpl; lia|simpl; auto|exact O3|].
    constructor. }
  assert (Hne : c <> []) by (intros ->; rewrite skipn_nil in O1; discriminate).
  rewrite js_split_nonempty by exact Hne.
  apply (split_loop_occs c (2 * List.length c + 2) 0 0 _ (le_n _) ltac:(lia) Hocc).
Qed.

(** Three 答案 markers and no other marker. *)
Definition three_answer_marks : jstr := mark_answers ++ mark_answers ++ mark_answers.

(** C6 counterexample: four segments although 阅读文本 and 选择题 are
    absent. *)
Lemma split_markers_counterexample :
  List.length (js_split marker_re three_answer_marks) = 4%nat /\
  ~ markers_in_order three_answer_marks.
Proof.
  split; [vm_compute; reflexivity|].
  intros (a & b & d & e & H).
  assert (Hin : In 38405 three_answer_marks)
    by (rewrite H; apply in_or_app; right; left; reflexivity).
  vm_compute in Hin; lia.
Qed.

Lemma few_segments_rejected (c : jstr) (db : rstore) :
  c <> [] -> (List.length (js_split marker_re c) < 4)%nat ->
  reading_import (Some c) db = (db, ImportErr 400 ErrSections).
Proof.
  intros Hne Hl; apply Nat.ltb_lt in Hl.
  destruct c as [|x t]; [congruence|].
  unfold reading_import, parse_import; cbv zeta; rewrite Hl; reflexivity.
Qed.

(** C6 (amended): a split of non-empty content into fewer than 4
    segments makes the importer answer 400 (sections error) with the
    store unchanged, before any section is parsed; the three markers
    present in order always give at least 4 segments (the converse
    fails, see [split_markers_counterexample]). *)
Theorem split_markers_check :
  (forall c db, c <> [] -> (List.length (js_split marker_re c) < 4)%nat ->
     reading_import (Some c) db = (db, ImportErr 400 ErrSections)) /\
  (forall c, markers_in_order c -> (4 <= List.length (js_split marker_re c))%nat).
Proof. split; [exact few_segments_rejected|exact markers_in_order_split]. Qed.

(** A witness of both halves: the spec's example input. *)
Lemma split_markers_check_witness :
  (example_import <> [] /\ markers_in_order example_import /\
   (4 <= List.length (js_split marker_re example_import))%nat) /\
  (js "no markers" <> [] /\
   reading_import (Some (js "no markers")) empty_rstore =
   (empty_rstore, ImportErr 400 ErrSections)).
Proof.
  assert (Hm : markers_in_order example_import).
  { exists [], ([10] ++ js "Title" ++ [10] ++ js "Body" ++ [10]),
           ([10] ++ js "1. Q1? A. a B. b C. c" ++ [10]), ([10] ++ js "1. A").
    reflexivity. }
  split; [split; [discriminate|split; [exact Hm|]]|split; [discriminate|]].
  - exact (proj2 split_markers_check example_import Hm).
  - apply (proj1 split_markers_check); [discriminate|vm_compute; lia].
Defined.

End ImporterFacts.

(* ================================================================== *)
(** ** Proofs: reading answers *)
(* ================================================================== *)

Module SubmitFacts.
Import JsRegex Importer Submit.
Open Scope Z_scope.

(** Every score of [c] correct out of [t <= 39] questions. *)
Definition score_table_ok : bool :=
  forallb (fun t =>
    forallb (fun c => Leibniz.eqb (js_score c t) (num_of_Z (round_half_up c t)) &&
                      negb (is_nan (js_score c t)))
            (List.seq 0 (S t)))
    (List.seq 1 39).

Lemma score_table : score_table_ok = true.
Proof. vm_compute; reflexivity. Qed.

Lemma js_score_small (c t : nat) :
  (1 <= t <= 39)%nat -> (c <= t)%nat ->
  js_score c t = num_of_Z (round_half_up c t) /\ is_nan (js_score c t) = false.
Proof.
  intros Ht Hc; pose proof score_table as H; unfold score_table_ok in H.
  rewrite forallb_forall in H; specialize (H t ltac:(apply in_seq; lia)).
  rewrite forallb_forall in H; specialize (H c ltac:(apply in_seq; lia)).
  apply andb_prop in H as [H1 H2]; apply Leibniz.eqb_spec in H1.
  split; [exact H1|destruct (is_nan (js_score c t)); [discriminate|reflexivity]].
Qed.

Lemma ascii_upper_nil (s : jstr) : ascii_upper s = [] <-> s = [].
Proof. destruct s; split; intros H; try reflexivity; discriminate. Qed.

(** A passage with two questions, both answered A. *)
Definition q_row (id : Z) (a : jstr) : question_row :=
  {| rq_id := id; rq_passage_id := 1; rq_question_text := js "Q";
     rq_option_a := js "a"; rq_option_b := js "b"; rq_option_c := js "c";
     rq_correct_answer := a |}.

Definition passage_1 : passage_row :=
  {| rp_id := 1; rp_title := js "T"; rp_content := js "B"; rp_exposure := 0 |}.

Definition store_with (qs : list question_row) : sstore :=
  {| reading := {| passages := [passage_1]; questions := qs;
                   next_passage_id := 2;
                   next_question_id := Z.of_nat (List.length qs) + 1 |};
     test_results := []; next_result_id := 1 |}.

Definition two_question_store : sstore := store_with [q_row 1 (js "A"); q_row 2 (js "A")].

Definition two_answers : list (Z * jstr) := [(1, js "a"); (2, js "B")].

(** Forty questions answered A, of which the first 23 are answered right. *)
Definition forty_question_store : sstore :=
  store_with (map (fun i => q_row (Z.of_nat i) (js "A")) (List.seq 1 40)).

Definition answers_23_of_40 : list (Z * jstr) :=
  map (fun i => (Z.of_nat i, if Nat.leb i 23 then js "A" else js "B")) (List.seq 1 40).

Section Score.

Variable toUpperCase : jstr -> jstr.
Hypothesis upper_nil : forall s, toUpperCase s = [] <-> s = [].

Lemma is_correct_matches (ans : list (Z * jstr)) (qs : list question_row) :
  Forall (fun q => rq_correct_answer q <> []) qs ->
  filter (is_correct toUpperCase ans) qs = filter (matches_ci toUpperCase ans) qs.
Proof.
  induction 1 as [|q qs Hq _ IH]; [reflexivity|]; simpl; rewrite IH.
  assert (E : is_correct toUpperCase ans q = matches_ci toUpperCase ans q).
  { unfold is_correct, matches_ci.
    destruct (obj_lookup (rq_id q) ans) as [[|x u]|]; try reflexivity.
    unfold jstr_eqb.
    destruct (list_eq_dec Z.eq_dec (toUpperCase []) (toUpperCase (rq_correct_answer q)))
      as [e|]; [|reflexivity].
    exfalso; apply Hq, upper_nil; rewrite <- e; apply upper_nil; reflexivity. }
  rewrite E; reflexivity.
Qed.

(** C8 (amended): for a passage with 1 to 39 questions whose stored
    answers are non-empty, the returned and the recorded score are both
    the integer nearest to 100 × correct / total, ties upwards, where
    correct counts the submitted answers equal to the stored one up to
    [toUpperCase]. *)
Theorem reading_score_rounding (st : sstore) (pid : Z) (ans : list (Z * jstr)) :
  pid <> 0 ->
  (1 <= List.length (passage_questions pid st) <= 39)%nat ->
  Forall (fun q => rq_correct_answer q <> []) (passage_questions pid st) ->
  let c := spec_correct toUpperCase ans (passage_questions pid st) in
  let t := List.length (passage_questions pid st) in
  exists results,
    submit_answers toUpperCase (Some pid) (Some ans) st =
    ({| reading := reading st;
        test_results := test_results st ++
          [{| tr_id := next_result_id st; tr_score := num_of_Z (round_half_up c t);
              tr_total_words := Z.of_nat t; tr_correct_count := Z.of_nat c;
              tr_incorrect_count := Z.of_nat t - Z.of_nat c;
              tr_type := "reading-comprehension"%string |}];
        next_result_id := next_result_id st + 1 |},
     SOk (num_of_Z (round_half_up c t)) c t results).
Proof.
  intros Hpid Ht Hne c t.
  assert (Hc : (c <= t)%nat) by apply filter_length_le.
  destruct (js_score_small c t Ht Hc) as [E1 E2].
  unfold submit_answers; apply Z.eqb_neq in Hpid; rewrite Hpid; cbv zeta.
  rewrite (is_correct_matches ans _ Hne).
  change (List.length (filter (matches_ci toUpperCase ans) (passage_questions pid st)))
    with c.
  change (List.length (passage_questions pid st)) with t.
  change (math_round ((num_of_nat c / num_of_nat t) * 100)%float) with (js_score c t).
  unfold insert_test_result; rewrite E2, E1.
  eexists; reflexivity.
Qed.

End Score.

(** The spec's example: 1 correct answer of 2 gives 50. *)
Lemma reading_score_rounding_witness :
  round_half_up 1 2 = 50 /\
  exists st' results,
    submit_answers ascii_upper (Some 1) (Some two_answers) two_question_store =
    (st', SOk (num_of_Z 50) 1 2 results).
Proof.
  split; [reflexivity|].
  assert (H1 : (1 <= List.length (passage_questions 1 two_question_store) <= 39)%nat)
    by (vm_compute; lia).
  assert (H2 : Forall (fun q => rq_correct_answer q <> [])
                      (passage_questions 1 two_question_store))
    by (repeat constructor; discriminate).
  destruct (reading_score_rounding ascii_upper ascii_upper_nil two_question_store 1
              two_answers ltac:(discriminate) H1 H2) as [results E].
  eexists; exists results; rewrite E; reflexivity.
Defined.

(** C8 counterexample: 23 correct of 40; (23/40)*100 is
    57.49999999999999 in binary64, so the score is 57, not 58. *)
Lemma reading_score_counterexample :
  spec_correct ascii_upper answers_23_of_40 (passage_questions 1 forty_question_store) = 23%nat /\
  List.length (passage_questions 1 forty_question_store) = 40%nat /\
  round_half_up 23 40 = 58 /\
  exists st' results,
    submit_answers ascii_upper (Some 1) (Some answers_23_of_40) forty_question_store =
    (st', SOk (num_of_Z 57) 23 40 results) /\
    In {| tr_id := 1; tr_score := num_of_Z 57; tr_total_words := 40;
          tr_correct_count := 23; tr_incorrect_count := 17;
          tr_type := "reading-comprehension"%string |} (test_results st').
Proof.
  split; [vm_compute; reflexivity|].
  split; [vm_compute; reflexivity|].
  split; [reflexivity|].
  exists (fst (submit_answers ascii_upper (Some 1) (Some answers_23_of_40) forty_question_store)).
  exists (match snd (submit_answers ascii_upper (Some 1) (Some answers_23_of_40)
                                   forty_question_store) with
          | SOk _ _ _ r => r | SErr _ => [] end).
  split; [vm_compute; reflexivity|].
  vm_compute; left; reflexivity.
Qed.

(** C10 (amended): with a non-zero [passageId] and an [answers] object,
    a passage without questions gets a success response with score NaN,
    correctCount 0, totalQuestions 0 and no results; the NaN score is
    refused by the NOT NULL column, so the store is unchanged. *)
Theorem submit_no_questions (toUpperCase : jstr -> jstr) (st : sstore) (pid : Z)
    (ans : list (Z * jstr)) :
  pid <> 0 -> passage_questions pid st = [] ->
  submit_answers toUpperCase (Some pid) (Some ans) st = (st, SOk nan 0 0 []).
Proof.
  intros Hpid Hq; unfold submit_answers.
  apply Z.eqb_neq in Hpid; rewrite Hpid, Hq; cbv zeta; cbn [filter List.length map].
  assert (E : math_round ((num_of_nat 0 / num_of_nat 0) * 100)%float = nan)
    by (vm_compute; reflexivity).
  rewrite E; unfold insert_test_result.
  replace (is_nan nan) with true by (vm_compute; reflexivity).
  reflexivity.
Qed.

Lemma submit_no_questions_witness :
  passage_questions 7 two_question_store = [] /\
  submit_answers ascii_upper (Some 7) (Some two_answers) two_question_store =
  (two_question_store, SOk nan 0 0 []).
Proof.
  assert (H : passage_questions 7 two_question_store = []) by reflexivity.
  split; [exact H|].
  exact (submit_no_questions ascii_upper two_question_store 7 two_answers
           ltac:(discriminate) H).
Defined.

(** C10 counterexample: passage id 0 (ids start at 1) and a missing
    [answers] object are answered 400, not success. *)
Lemma submit_no_questions_counterexample :
  passage_questions 0 empty_sstore = [] /\
  submit_answers ascii_upper (Some 0) (Some []) empty_sstore = (empty_sstore, SErr 400) /\
  submit_answers ascii_upper None (Some []) empty_sstore = (empty_sstore, SErr 400) /\
  submit_answers ascii_upper (Some 7) None empty_sstore = (empty_sstore, SErr 400).
Proof. repeat split. Qed.

End SubmitFacts.

(* ================================================================== *)
(** ** Proofs: mistake ids and the mistakes list *)
(* ================================================================== *)

Module MistakeListFacts.
Import Mistakes Words MistakeList.
Open Scope Z_scope.

(** Row ids increase in table order and stay below the counter. *)
Definition ids_ok (st : mstore) : Prop :=
  StronglySorted Z.lt (map m_id (rows st)) /\ Forall (fun r => m_id r < next_id st) (rows st).

Lemma sorted_map_filter {A} (g : A -> Z) (p : A -> bool) (l : list A) :
  StronglySorted Z.lt (map g l) -> StronglySorted Z.lt (map g (filter p l)).
Proof.
  induction l as [|a l IH]; simpl; intros H; [constructor|].
  apply StronglySorted_inv in H as [H1 H2].
  destruct (p a); simpl; [|auto].
  constructor; [auto|].
  rewrite Forall_forall in H2 |- *; intros x Hx.
  apply in_map_iff in Hx as (y & <- & Hy); apply filter_In in Hy as [Hy _].
  apply H2, in_map; exact Hy.
Qed.

Lemma sorted_snoc (l : list Z) (x : Z) :
  StronglySorted Z.lt l -> Forall (fun y => y < x) l -> StronglySorted Z.lt (l ++ [x]).
Proof.
  induction l as [|a l IH]; simpl; intros H Hx.
  - repeat constructor.
  - apply StronglySorted_inv in H as [H1 H2]; inversion Hx; subst.
    constructor; [auto|].
    apply Forall_app; split; [exact H2|constructor; [assumption|constructor]].
Qed.

Lemma ids_ok_update (id : Z) (f : mistake -> mistake) (st : mstore) :
  (forall r, m_id (f r) = m_id r) -> ids_ok st -> ids_ok (update_where_id id f st).
Proof.
  intros Hf [H1 H2]; unfold update_where_id, ids_ok; simpl.
  assert (E : map m_id (map (fun r => if m_id r =? id then f r else r) (rows st)) =
              map m_id (rows st)).
  { rewrite map_map; apply map_ext; intros r; destruct (m_id r =? id); auto. }
  rewrite E; split; [exact H1|].
  rewrite Forall_forall in H2 |- *; intros r Hr.
  apply in_map_iff in Hr as (r' & <- & Hr').
  destruct (m_id r' =? id); [rewrite Hf|]; auto.
Qed.

Lemma ids_ok_delete (id : Z) (st : mstore) : ids_ok st -> ids_ok (delete_where_id id st).
Proof.
  intros [H1 H2]; split; simpl.
  - apply sorted_map_filter; exact H1.
  - rewrite Forall_forall in H2 |- *; intros r Hr; apply filter_In in Hr as [Hr _]; auto.
Qed.

Lemma ids_ok_insert (w : Z) (st : mstore) : ids_ok st -> ids_ok (fst (insert_mistake w st)).
Proof.
  intros [H1 H2]; split; simpl.
  - rewrite map_app; simpl; apply sorted_snoc; [exact H1|].
    rewrite Forall_map; exact H2.
  - apply Forall_app; split.
    + rewrite Forall_forall in H2 |- *; intros r Hr; specialize (H2 r Hr); lia.
    + constructor; [simpl; lia|constructor].
Qed.

Lemma ids_ok_add_write (w : Z) (found : option mistake) (st : mstore) :
  ids_ok st -> ids_ok (fst (add_write w found st)).
Proof.
  intros H; destruct found as [row|]; simpl.
  - apply ids_ok_update; [reflexivity|exact H].
  - apply ids_ok_insert; exact H.
Qed.

Lemma ids_ok_correct_write (w : Z) (found : option mistake) (st : mstore) :
  ids_ok st -> ids_ok (fst (correct_write w found st)).
Proof.
  intros H; destruct found as [row|]; simpl; [|exact H].
  destruct (2 <=? correct_streak row + 1); simpl.
  - apply ids_ok_delete; exact H.
  - apply ids_ok_update; [reflexivity|exact H].
Qed.

Lemma ids_ok_run_op (op : mop) (st : mstore) : ids_ok st -> ids_ok (run_op op st).
Proof.
  intros H; destruct op as [[w|]|w|id|]; simpl.
  - unfold post_mistakes; destruct (w =? 0); [exact H|apply ids_ok_add_write; exact H].
  - exact H.
  - unfold post_mistakes_correct; apply ids_ok_correct_write; exact H.
  - unfold delete_mistake; simpl.
    destruct (Nat.eqb _ _); simpl; apply ids_ok_delete; exact H.
  - split; simpl; constructor.
Qed.

Lemma ids_ok_empty : ids_ok empty_store.
Proof. split; simpl; constructor. Qed.

(** X1: in every state of the table, also when the read and the write
    of concurrent requests interleave, the row ids strictly increase in
    table order and are all below the AUTOINCREMENT counter. *)
Theorem mistake_ids_increasing :
  (forall st, seq_reachable st -> ids_ok st) /\
  (forall st ps, conc_reachable st ps -> ids_ok st).
Proof.
  split.
  - induction 1; [exact ids_ok_empty|apply ids_ok_run_op; assumption].
  - induction 1 as [| | |st ps1 p ps2 _ IH|st ps op _ IH _]; auto using ids_ok_empty.
    + destruct p; simpl; [apply ids_ok_add_write|apply ids_ok_correct_write]; exact IH.
    + apply ids_ok_run_op; exact IH.
Qed.

Lemma mistake_ids_increasing_witness :
  seq_reachable (run_op OpClear (run_op (OpAdd (Some 5)) empty_store)) /\
  ids_ok (run_op OpClear (run_op (OpAdd (Some 5)) empty_store)).
Proof.
  assert (H : seq_reachable (run_op OpClear (run_op (OpAdd (Some 5)) empty_store)))
    by (repeat constructor).
  split; [exact H|exact (proj1 mistake_ids_increasing _ H)].
Defined.

(** X2: [DELETE /api/mistakes/:id] answers 404 exactly when no row has
    this id, and then the table is unchanged. *)
Theorem delete_mistake_404 (st : mstore) (id : Z) :
  (snd (delete_mistake id st) = MErr 404 <-> ~ In id (map m_id (rows st))) /\
  (~ In id (map m_id (rows st)) -> fst (delete_mistake id st) = st).
Proof.
  assert (Hnot : ~ In id (map m_id (rows st)) ->
                 filter (fun r => negb (m_id r =? id)) (rows st) = rows st).
  { intros Hn; apply forallb_filter_id, forallb_forall; intros r Hr.
    destruct (Z.eqb_spec (m_id r) id) as [E|]; [|reflexivity].
    exfalso; apply Hn; rewrite <- E; apply in_map; exact Hr. }
  unfold delete_mistake, delete_where_id; cbn [rows]; split.
  - split.
    + intros H Hin.
      destruct (Nat.eqb_spec (List.length (filter (fun r => negb (m_id r =? id)) (rows st)))
                             (List.length (rows st))) as [E|E]; [|discriminate].
      apply in_map_iff in Hin as (r & Hr & Hin).
      apply filter_length_forallb in E; rewrite forallb_forall in E.
      specialize (E r Hin); rewrite Hr, Z.eqb_refl in E; discriminate.
    + intros Hn; rewrite (Hnot Hn), Nat.eqb_refl; reflexivity.
  - intros Hn; rewrite (Hnot Hn), Nat.eqb_refl; destruct st; reflexivity.
Qed.

Lemma in_mistakes_join (d : db) (v : mistake_view) :
  In v (mistakes_join d) ->
  exists w, In w (words (dwords d)) /\ w_id w = m_word_id (mv_mistake v) /\
            In (mv_mistake v) (rows (dmistakes d)).
Proof.
  unfold mistakes_join; intros H.
  apply in_flat_map in H as (r & Hr & H).
  apply in_map_iff in H as (w & <- & Hw); apply filter_In in Hw as [Hw E].
  apply Z.eqb_eq in E; exists w; simpl; auto.
Qed.

Lemma listed_word_exists (d : db) (out : list mistake_view) (v : mistake_view) :
  get_mistakes d out -> In v out ->
  exists w, In w (words (dwords d)) /\ w_id w = m_word_id (mv_mistake v).
Proof.
  intros Hp Hv; apply (Permutation_in v Hp) in Hv.
  destruct (in_mistakes_join d v Hv) as (w & ? & ? & _); eauto.
Qed.

(** X3: [DELETE /api/words/:id] keeps the word's rows in [mistakes]
    (the foreign key is not enforced), while [GET /api/mistakes] lists
    none of them any more. *)
Theorem delete_word_orphans_mistakes (d : db) (id : Z) :
  rows_of id (dmistakes (db_delete_word id d)) = rows_of id (dmistakes d) /\
  (forall out, get_mistakes (db_delete_word id d) out ->
   forall v, In v out -> m_word_id (mv_mistake v) <> id).
Proof.
  split; [reflexivity|].
  intros out Hout v Hv E.
  destruct (listed_word_exists _ out v Hout Hv) as (w & Hw & Hid).
  unfold db_delete_word, WordsApi.delete_word in Hw; simpl in Hw.
  destruct (Nat.ltb _ _); simpl in Hw;
    apply filter_In in Hw as [_ Hw]; rewrite Hid, E, Z.eqb_refl in Hw; discriminate.
Qed.

Definition one_word_db : db :=
  {| dwords := {| words := [{| w_id := 1; english := "apple"; chinese := "pingguo";
                               example := None; familiarity := 0; exposure := 0 |}];
                  w_next_id := 2 |};
     dmistakes := fst (post_mistakes (Some 1) empty_store) |}.

(** X4: [POST /api/mistakes] accepts a [word_id] that no word has: it
    answers with a new row, which [GET /api/mistakes] never lists. *)
Theorem post_mistake_unknown_word (d : db) (w : Z) :
  w <> 0 -> find_word w (dwords d) = None ->
  (exists r, snd (db_post_mistakes (Some w) d) = MRow r /\ m_word_id r = w) /\
  rows_of w (dmistakes (fst (db_post_mistakes (Some w) d))) <> [] /\
  (forall out, get_mistakes (fst (db_post_mistakes (Some w) d)) out ->
   forall v, In v out -> m_word_id (mv_mistake v) <> w).
Proof.
  intros Hw0 Hnone.
  assert (Hno : forall x, In x (words (dwords d)) -> w_id x <> w).
  { intros x Hx E; unfold find_word in Hnone.
    pose proof (find_none _ _ Hnone x Hx) as F; simpl in F.
    rewrite E, Z.eqb_refl in F; discriminate. }
  unfold db_post_mistakes, post_mistakes; apply Z.eqb_neq in Hw0; rewrite Hw0.
  destruct (select_by_word w (dmistakes d)) as [row|] eqn:Hs; cbn.
  - split; [eexists; split; reflexivity|split].
    + unfold rows_of, update_where_id; simpl.
      assert (Hin : In row (rows (dmistakes d)) /\ m_word_id row = w).
      { unfold select_by_word in Hs; split; [apply (find_some _ _ Hs)|].
        apply Z.eqb_eq, (find_some _ _ Hs). }
      intros Hf.
      set (g := fun r => if m_id r =? m_id row then
                  {| m_id := m_id r; m_word_id := m_word_id r;
                     mistake_count := mistake_count r + 1; correct_streak := 0 |}
                  else r) in Hf.
      assert (Hr : In (g row) (filter (fun r => m_word_id r =? w) (map g (rows (dmistakes d))))).
      { apply filter_In; split; [apply in_map, Hin|].
        unfold g; rewrite Z.eqb_refl; simpl; apply Z.eqb_eq, Hin. }
      rewrite Hf in Hr; destruct Hr.
    + intros out Hout v Hv E.
      destruct (listed_word_exists _ out v Hout Hv) as (x & Hx & Hid).
      exact (Hno x Hx (eq_trans Hid E)).
  - split; [eexists; split; reflexivity|split].
    + unfold rows_of; simpl; rewrite filter_app; simpl; rewrite Z.eqb_refl.
      intros H; apply app_eq_nil in H as [_ H]; discriminate.
    + intros out Hout v Hv E.
      destruct (listed_word_exists _ out v Hout Hv) as (x & Hx & Hid).
      exact (Hno x Hx (eq_trans Hid E)).
Qed.

Lemma post_mistake_unknown_word_witness :
  find_word 2 (dwords one_word_db) = None /\
  rows_of 2 (dmistakes (fst (db_post_mistakes (Some 2) one_word_db))) <> [].
Proof.
  assert (H : find_word 2 (dwords one_word_db) = None) by reflexivity.
  split; [exact H|].
  exact (proj1 (proj2 (post_mistake_unknown_word one_word_db 2 ltac:(discriminate) H))).
Defined.

End MistakeListFacts.

(* ================================================================== *)
(** ** Facts about the word handlers *)
(* ================================================================== *)

Module WordsApiFacts.

Import Words WordsApi.
Open Scope Z_scope.

(** What the handlers keep in [words]: the lowered English forms are
    distinct, ids increase in rowid order and stay below the counter. *)
Definition words_ok (st : wstore) : Prop :=
  NoDup (map (fun w => sql_lower (english w)) (words st)) /\
  StronglySorted Z.lt (map w_id (words st)) /\
  Forall (fun w => w_id w < w_next_id st) (words st).

Lemma words_ok_filter (p : word -> bool) (st : wstore) :
  words_ok st -> words_ok {| words := filter p (words st); w_next_id := w_next_id st |}.
Proof.
  intros (H1 & H2 & H3); unfold words_ok; simpl; split; [|split].
  - apply MistakesFacts.nodup_map_filter; exact H1.
  - apply MistakeListFacts.sorted_map_filter; exact H2.
  - rewrite Forall_forall in H3 |- *; intros w Hw; apply filter_In in Hw as [Hw _]; auto.
Qed.

Lemma words_ok_update (id : Z) (f : word -> word) (st : wstore) :
  (forall w, w_id (f w) = w_id w) -> (forall w, english (f w) = english w) ->
  words_ok st -> words_ok (update_word_where_id id f st).
Proof.
  intros Hi He (H1 & H2 & H3); unfold words_ok, update_word_where_id; simpl.
  rewrite !map_map.
  assert (E1 : map (fun x => sql_lower (english (if w_id x =? id then f x else x))) (words st) =
               map (fun w => sql_lower (english w)) (words st)).
  { apply map_ext; intros w; destruct (w_id w =? id); [rewrite He|]; reflexivity. }
  assert (E2 : map (fun x => w_id (if w_id x =? id then f x else x)) (words st) =
               map w_id (words st)).
  { apply map_ext; intros w; destruct (w_id w =? id); [rewrite Hi|]; reflexivity. }
  rewrite E1, E2; split; [exact H1|split; [exact H2|]].
  rewrite Forall_forall in H3 |- *; intros w Hw.
  apply in_map_iff in Hw as (w' & <- & Hw').
  destruct (w_id w' =? id); [rewrite Hi|]; auto.
Qed.

Lemma existsb_false_not_in (e : string) (l : list word) :
  existsb (fun w => String.eqb (sql_lower (english w)) e) l = false ->
  ~ In e (map (fun w => sql_lower (english w)) l).
Proof.
  intros H Hin; apply in_map_iff in Hin as (w & Hw & Hl).
  assert (existsb (fun w => String.eqb (sql_lower (english w)) e) l = true) as C.
  { apply existsb_exists; exists w; split; [exact Hl|apply String.eqb_eq; exact Hw]. }
  congruence.
Qed.

Lemma words_ok_post (e c ex : option string) (st : wstore) :
  words_ok st -> words_ok (fst (post_word e c ex st)).
Proof.
  intros Hok; pose proof Hok as (H1 & H2 & H3); unfold post_word.
  destruct (negb (truthy_str e && truthy_str c)); [exact Hok|].
  match goal with |- context [if ?b then _ else _] => case_eq b; intros Hx end;
    [exact Hok|].
  unfold words_ok; simpl; split; [|split].
  - rewrite map_app; simpl; apply MistakesFacts.nodup_snoc; [exact H1|].
    apply existsb_false_not_in; exact Hx.
  - rewrite map_app; simpl; apply MistakeListFacts.sorted_snoc; [exact H2|].
    rewrite Forall_map; exact H3.
  - apply Forall_app; split.
    + rewrite Forall_forall in H3 |- *; intros w Hw; specialize (H3 w Hw); lia.
    + constructor; [simpl; lia|constructor].
Qed.

Lemma words_ok_run (op : wop) (st : wstore) : words_ok st -> words_ok (run_wop op st).
Proof.
  intros H; destruct op as [e c ex|id|ids| |id b]; simpl.
  - apply words_ok_post; exact H.
  - unfold delete_word; simpl.
    destruct (Nat.ltb 0 _); apply words_ok_filter; exact H.
  - unfold batch_delete.
    destruct (filter _ _); [exact H|apply words_ok_filter; exact H].
  - repeat split; simpl; constructor.
  - unfold update_stats; destruct b; simpl;
      repeat apply words_ok_update; try reflexivity; exact H.
Qed.

Lemma words_ok_reach (st : wstore) : wreach st -> words_ok st.
Proof.
  induction 1.
  - repeat split; simpl; constructor.
  - apply words_ok_run; assumption.
Qed.

Lemma find_snoc_fresh (l : list word) (w : word) (id : Z) :
  Forall (fun x => w_id x < id) l -> w_id w = id ->
  find (fun x => w_id x =? id) (l ++ [w]) = Some w.
Proof.
  intros Hl Hw; induction l as [|x l IH]; simpl.
  - rewrite Hw, Z.eqb_refl; reflexivity.
  - inversion Hl; subst.
    replace (w_id x =? w_id w) with false by (symmetry; apply Z.eqb_neq; lia).
    apply IH; assumption.
Qed.

Lemma filter_snoc_fresh (l : list word) (w : word) (id : Z) :
  Forall (fun x => w_id x < id) l -> w_id w = id ->
  filter (fun x => negb (w_id x =? id)) (l ++ [w]) = l.
Proof.
  intros Hl Hw; rewrite filter_app; simpl; rewrite Hw, Z.eqb_refl; simpl.
  rewrite app_nil_r; induction l as [|x l IH]; simpl; [reflexivity|].
  inversion Hl; subst.
  replace (w_id x =? w_id w) with false by (symmetry; apply Z.eqb_neq; lia).
  simpl; f_equal; apply IH; assumption.
Qed.

Lemma map_update_absent (id : Z) (f : word -> word) (l : list word) :
  find (fun w => w_id w =? id) l = None ->
  map (fun w => if w_id w =? id then f w else w) l = l.
Proof.
  induction l as [|w l IH]; simpl; [reflexivity|].
  destruct (w_id w =? id); [discriminate|]; intros H; f_equal; auto.
Qed.

Lemma find_word_filter_none (id : Z) (l : list word) :
  find (fun w => w_id w =? id) (filter (fun w => negb (w_id w =? id)) l) = None.
Proof.
  induction l as [|w l IH]; simpl; [reflexivity|].
  case_eq (w_id w =? id); intros E; simpl; [exact IH|rewrite E; exact IH].
Qed.

Lemma find_none_filter_id (id : Z) (l : list word) :
  find (fun w => w_id w =? id) l = None ->
  filter (fun w => negb (w_id w =? id)) l = l.
Proof.
  induction l as [|w l IH]; simpl; [reflexivity|].
  destruct (w_id w =? id); [discriminate|]; intros H; simpl; f_equal; auto.
Qed.

Lemma filter_length_find_some (id : Z) (l : list word) (w : word) :
  find (fun x => w_id x =? id) l = Some w ->
  Nat.lt (List.length (filter (fun x => negb (w_id x =? id)) l)) (List.length l).
Proof.
  induction l as [|x l IH]; simpl; [discriminate|].
  destruct (w_id x =? id); simpl; intros H.
  - pose proof (List.filter_length_le (fun x => negb (w_id x =? id)) l) as L.
    lia.
  - specialize (IH H); lia.
Qed.

(** A store reached from the empty table by one [POST /api/words]. *)
Definition apple_store : wstore :=
  run_wop (WPost (Some "apple"%string) (Some "x"%string) None) empty_wstore.

Definition apple_word : word :=
  {| w_id := 1; english := "apple"; chinese := "x"; example := None;
     familiarity := 0; exposure := 0 |}.



(** X6. A word created by [POST /api/words] in a reachable store gets
    the next id, [GET /api/words/:id] of that id then answers exactly
    the created row, and [DELETE /api/words/:id] of it succeeds and
    leaves the word list as it was before the POST. *)
Theorem post_word_get_delete (st st' : wstore) (e c ex : option string) (w : word) :
  wreach st -> post_word e c ex st = (st', WRow w) ->
  w_id w = w_next_id st /\ w_next_id st' = w_next_id st + 1 /\
  get_word (w_id w) st' = WRow w /\
  snd (delete_word (w_id w) st') = DMessage "Word deleted successfully" /\
  words (fst (delete_word (w_id w) st')) = words st.
Proof.
  intros Hr Hp; pose proof (words_ok_reach st Hr) as (_ & _ & H3).
  unfold post_word in Hp.
  destruct (negb (truthy_str e && truthy_str c)); [discriminate|].
  destruct (existsb _ _); [discriminate|].
  injection Hp as <- <-; simpl.
  split; [reflexivity|split; [reflexivity|]].
  unfold get_word, find_word; simpl.
  rewrite find_snoc_fresh with (id := w_next_id st); [|exact H3|reflexivity].
  split; [reflexivity|].
  unfold delete_word; simpl.
  rewrite filter_snoc_fresh with (id := w_next_id st); [|exact H3|reflexivity].
  rewrite length_app; simpl.
  replace (List.length (words st) + 1 - List.length (words st))%nat with 1%nat by lia.
  split; reflexivity.
Qed.

Lemma post_word_get_delete_witness :
  wreach empty_wstore /\
  post_word (Some "apple"%string) (Some "x"%string) None empty_wstore =
    ({| words := [apple_word]; w_next_id := 2 |}, WRow apple_word) /\
  get_word 1 {| words := [apple_word]; w_next_id := 2 |} = WRow apple_word.
Proof.
  assert (H : post_word (Some "apple"%string) (Some "x"%string) None empty_wstore =
              ({| words := [apple_word]; w_next_id := 2 |}, WRow apple_word))
    by reflexivity.
  split; [apply wreach_init|split; [exact H|]].
  exact (proj1 (proj2 (proj2 (post_word_get_delete _ _ _ _ _ _ wreach_init H)))).
Defined.

(** X7. [POST /api/words] answers 409 and changes nothing whenever a
    stored word has the same English text as the (non-empty) request
    under SQLite's [LOWER], whatever the other fields are. *)
Theorem post_word_conflict (st : wstore) (e c : string) (ex : option string) (w : word) :
  e <> EmptyString -> c <> EmptyString -> In w (words st) ->
  sql_lower (english w) = sql_lower e ->
  post_word (Some e) (Some c) ex st = (st, WErr 409).
Proof.
  intros He Hc Hw Hl; unfold post_word, truthy_str.
  replace (String.eqb e "") with false by (symmetry; apply String.eqb_neq; exact He).
  replace (String.eqb c "") with false by (symmetry; apply String.eqb_neq; exact Hc).
  simpl.
  replace (existsb _ _) with true; [reflexivity|].
  symmetry; apply existsb_exists; exists w; split; [exact Hw|apply String.eqb_eq; exact Hl].
Qed.

Lemma post_word_conflict_witness :
  post_word (Some "APPLE"%string) (Some "y"%string) None apple_store = (apple_store, WErr 409).
Proof.
  apply (post_word_conflict apple_store "APPLE" "y" None apple_word);
    [discriminate|discriminate|left; reflexivity|reflexivity].
Defined.

(** X8. [POST /api/words/:id/update-stats] for an id with no row
    changes nothing and still answers [{success: true}], never 404. *)
Theorem update_stats_absent (id : Z) (b : bool) (st : wstore) :
  find_word id st = None -> update_stats id b st = (st, WOk).
Proof.
  intros H; destruct st as [ws n]; unfold find_word in H; simpl in H.
  unfold update_stats, update_word_where_id; simpl.
  rewrite (map_update_absent id bump_exposure ws H).
  destruct b; simpl; [rewrite (map_update_absent id bump_familiarity ws H)|]; reflexivity.
Qed.

Lemma update_stats_absent_witness : update_stats 7 true apple_store = (apple_store, WOk).
Proof. apply update_stats_absent; reflexivity. Defined.

(** X9. After [DELETE /api/words/:id] no row has that id
    ([GET /api/words/:id] answers 404); the DELETE itself answers 404
    exactly when no row had the id, and then the store is unchanged. *)
Theorem delete_word_result (id : Z) (st : wstore) :
  get_word id (fst (delete_word id st)) = WErr 404 /\
  (snd (delete_word id st) = DErr 404 <-> find_word id st = None) /\
  (find_word id st = None -> fst (delete_word id st) = st).
Proof.
  unfold delete_word, get_word, find_word; simpl.
  split; [|split].
  - destruct (Nat.ltb 0 _); simpl; rewrite find_word_filter_none; reflexivity.
  - case_eq (find (fun w => w_id w =? id) (words st)).
    + intros w Hw; pose proof (filter_length_find_some id (words st) w Hw) as L.
      replace (Nat.ltb 0 _) with true by (symmetry; apply Nat.ltb_lt; lia).
      simpl; split; discriminate.
    + intros Hn; rewrite (find_none_filter_id id _ Hn), Nat.sub_diag; simpl; tauto.
  - intros Hn; rewrite (find_none_filter_id id _ Hn), Nat.sub_diag; simpl.
    destruct st; reflexivity.
Qed.

(** X10. [GET /api/words/stats]: the tested and familiar counts never
    exceed the total; an empty table gives both rates 0 (the division
    is guarded); with 1 to 39 words each rate equals
    round(count/total × 100) on exact rationals, ties upwards. *)
Theorem word_stats_rates (st : wstore) :
  Nat.le (tested_words_count (word_stats st)) (total_words_count (word_stats st)) /\
  Nat.le (familiar_words_count (word_stats st)) (total_words_count (word_stats st)) /\
  (words st = [] -> exposure_rate (word_stats st) = 0%float /\
                     familiarity_rate (word_stats st) = 0%float) /\
  (Nat.le 1 (total_words_count (word_stats st)) ->
   Nat.le (total_words_count (word_stats st)) 39 ->
   exposure_rate (word_stats st) =
     Submit.num_of_Z (Submit.round_half_up (tested_words_count (word_stats st))
                                           (total_words_count (word_stats st))) /\
   familiarity_rate (word_stats st) =
     Submit.num_of_Z (Submit.round_half_up (familiar_words_count (word_stats st))
                                           (total_words_count (word_stats st)))).
Proof.
  unfold word_stats; simpl.
  split; [apply List.filter_length_le|split; [apply List.filter_length_le|split]].
  - intros E; rewrite E; simpl; split; reflexivity.
  - intros H1 H2.
    replace (Nat.ltb 0 (List.length (words st))) with true by (symmetry; apply Nat.ltb_lt; lia).
    split.
    + apply (SubmitFacts.js_score_small _ _ (conj H1 H2) (List.filter_length_le _ _)).
    + apply (SubmitFacts.js_score_small _ _ (conj H1 H2) (List.filter_length_le _ _)).
Qed.

(** A decimal digit '0'..'9'. *)
Definition is_dec (c : Ascii.ascii) : bool := Nat.leb 48 (code c) && Nat.leb (code c) 57.

(** The value of a string of decimal digits, most significant first. *)
Definition decimal_value (ds : string) : Z :=
  fold_left (fun acc c => acc * 10 + (Z.of_nat (Ascii.nat_of_ascii c) - 48))
            (list_ascii_of_string ds) 0.

Lemma skip_ws_app (ws s : string) :
  forallb str_ws (list_ascii_of_string ws) = true -> skip_ws (ws ++ s) = skip_ws s.
Proof.
  induction ws as [|c ws IH]; simpl; [reflexivity|].
  intros H; apply andb_prop in H as [H1 H2]; rewrite H1; apply IH, H2.
Qed.

Lemma dec_not_ws (c : Ascii.ascii) : is_dec c = true -> str_ws c = false.
Proof.
  unfold is_dec, str_ws; set (n := code c); intros H; apply andb_prop in H as [H1 H2].
  apply Nat.leb_le in H1; apply Nat.leb_le in H2.
  replace (Nat.leb n 13) with false by (symmetry; apply Nat.leb_gt; lia).
  replace (Nat.eqb n 32) with false by (symmetry; apply Nat.eqb_neq; lia).
  replace (Nat.eqb n 160) with false by (symmetry; apply Nat.eqb_neq; lia).
  rewrite andb_false_r; reflexivity.
Qed.

Lemma digit_val_dec (c : Ascii.ascii) :
  is_dec c = true -> digit_val c = Some (Z.of_nat (Ascii.nat_of_ascii c) - 48) /\
                     Z.of_nat (Ascii.nat_of_ascii c) - 48 < 10.
Proof.
  unfold digit_val, is_dec, code; cbv zeta; intros H; rewrite H; split; [reflexivity|].
  apply andb_prop in H as [_ H]; apply Nat.leb_le in H; lia.
Qed.

Lemma digit_val_nondec (c : Ascii.ascii) (v : Z) :
  is_dec c = false -> digit_val c = Some v -> 10 <= v.
Proof.
  unfold digit_val, is_dec, code; cbv zeta; intros H; rewrite H.
  destruct (Nat.leb 97 (Ascii.nat_of_ascii c) && Nat.leb (Ascii.nat_of_ascii c) 122) eqn:A.
  - intros E; injection E as <-; apply andb_prop in A as [A _]; apply Nat.leb_le in A; lia.
  - destruct (Nat.leb 65 (Ascii.nat_of_ascii c) && Nat.leb (Ascii.nat_of_ascii c) 90) eqn:B;
      [|discriminate].
    intros E; injection E as <-; apply andb_prop in B as [B _]; apply Nat.leb_le in B; lia.
Qed.

Lemma take_digits_app (ds t : string) (acc : Z) (any : bool) :
  forallb is_dec (list_ascii_of_string ds) = true ->
  take_digits 10 (ds ++ t) acc any =
  take_digits 10 t
    (fold_left (fun acc c => acc * 10 + (Z.of_nat (Ascii.nat_of_ascii c) - 48))
               (list_ascii_of_string ds) acc)
    (match ds with EmptyString => any | _ => true end).
Proof.
  revert acc any; induction ds as [|c ds IH]; intros acc any; simpl; [reflexivity|].
  intros H; apply andb_prop in H as [H1 H2].
  destruct (digit_val_dec c H1) as [E L]; rewrite E.
  replace (Z.of_nat (Ascii.nat_of_ascii c) - 48 <? 10) with true by (symmetry; apply Z.ltb_lt; exact L).
  rewrite (IH _ _ H2); destruct ds; reflexivity.
Qed.

Lemma take_digits_stop (t : string) (acc : Z) (any : bool) :
  match t with String c _ => is_dec c = false | EmptyString => True end ->
  take_digits 10 t acc any = (acc, any).
Proof.
  destruct t as [|c t]; simpl; [reflexivity|]; intros H.
  destruct (digit_val c) as [v|] eqn:E; [|reflexivity].
  pose proof (digit_val_nondec c v H E).
  replace (v <? 10) with false by (symmetry; apply Z.ltb_ge; lia); reflexivity.
Qed.

Lemma not_dec_ascii (c d : Ascii.ascii) : is_dec c = true -> is_dec d = false -> Ascii.eqb c d = false.
Proof.
  intros H1 H2; destruct (Ascii.eqb_spec c d); [subst; congruence|reflexivity].
Qed.

(** X11. [parseInt] as the DELETE-batch handler applies it: leading
    white space, then a non-empty run of decimal digits followed by a
    non-digit (or the end), gives the decimal value of the digits as a
    Number; a lone "0" followed by x/X is excluded (radix 16). *)
Theorem parse_int_decimal (ws ds t : string) :
  forallb str_ws (list_ascii_of_string ws) = true ->
  ds <> EmptyString -> forallb is_dec (list_ascii_of_string ds) = true ->
  match t with String c _ => is_dec c = false | EmptyString => True end ->
  (ds = "0" -> match t with String x _ => x <> "x"%char /\ x <> "X"%char | EmptyString => True end) ->
  parse_int (ws ++ ds ++ t) = Submit.num_of_Z (decimal_value ds).
Proof.
  intros Hws Hne Hds Ht Hx; unfold parse_int.
  rewrite (skip_ws_app ws _ Hws).
  destruct ds as [|d ds]; [contradiction|].
  simpl in Hds; apply andb_prop in Hds as [Hd Hds'].
  simpl; rewrite (dec_not_ws d Hd).
  rewrite (not_dec_ascii d "-" Hd eq_refl), (not_dec_ascii d "+" Hd eq_refl).
  assert (Hr : forall x t0, ds ++ t = String x t0 ->
                ((d =? "0")%char && ((x =? "x")%char || (x =? "X")%char))%bool = false).
  { intros x t0 E; destruct ds as [|d2 ds2]; simpl in E.
    - subst t; destruct (Ascii.eqb_spec d "0"); [subst d|reflexivity].
      destruct (Hx eq_refl) as [N1 N2].
      destruct (Ascii.eqb_spec x "x"); [contradiction|].
      destruct (Ascii.eqb_spec x "X"); [contradiction|reflexivity].
    - injection E as <- _; simpl in Hds'; apply andb_prop in Hds' as [Hd2 _].
      rewrite (not_dec_ascii d2 "x" Hd2 eq_refl), (not_dec_ascii d2 "X" Hd2 eq_refl).
      apply andb_false_r. }
  assert (Hm : (match ds ++ t with
                | "" => (10, String d (ds ++ t))
                | String x t0 =>
                    if (d =? "0")%char && ((x =? "x")%char || (x =? "X")%char)
                    then (16, t0) else (10, String d (ds ++ t))
                end) = (10, String d (ds ++ t))).
  { destruct (ds ++ t) as [|x t0] eqn:E; [reflexivity|rewrite (Hr x t0 eq_refl); reflexivity]. }
  rewrite Hm.
  change (String d (ds ++ t)) with (String d ds ++ t).
  rewrite take_digits_app by (simpl; rewrite Hd, Hds'; reflexivity).
  rewrite (take_digits_stop t _ _ Ht).
  reflexivity.
Qed.

Lemma parse_int_decimal_witness : parse_int " 42px" = Submit.num_of_Z 42.
Proof.
  apply (parse_int_decimal " " "42" "px"); try reflexivity; discriminate.
Defined.

Lemma skip_ws_forallb (P : Ascii.ascii -> bool) (s : string) :
  forallb P (list_ascii_of_string s) = true -> forallb P (list_ascii_of_string (skip_ws s)) = true.
Proof.
  induction s as [|c s IH]; simpl; [reflexivity|]; intros H.
  destruct (str_ws c); [apply IH; apply andb_prop in H as [_ H]; exact H|exact H].
Qed.

Lemma zero_ne_nondec (c : Ascii.ascii) : is_dec c = false -> Ascii.eqb c "0" = false.
Proof. intros H; destruct (Ascii.eqb_spec c "0"); [subst; discriminate|reflexivity]. Qed.

Lemma take_digits_nondec (c : Ascii.ascii) (t : string) :
  is_dec c = false -> take_digits 10 (String c t) 0 false = (0, false).
Proof. intros H; apply (take_digits_stop (String c t)); exact H. Qed.

Ltac nondec_tail t Ht :=
  destruct t as [|c2 [|x t2]]; cbn -[take_digits] in Ht |- *;
  [reflexivity
  |apply andb_prop in Ht as [Ht _]; apply negb_true_iff in Ht;
   rewrite (take_digits_nondec c2 _ Ht); reflexivity
  |apply andb_prop in Ht as [Ht _]; apply negb_true_iff in Ht;
   rewrite (zero_ne_nondec c2 Ht); cbn -[take_digits];
   rewrite (take_digits_nondec c2 _ Ht); reflexivity].

(** X12. [parseInt] of a string that contains no decimal digit is NaN
    (letters such as [a]-[z] are digits only in radix 16, which needs
    the prefix [0x]). *)
Theorem parse_int_nan (s : string) :
  forallb (fun c => negb (is_dec c)) (list_ascii_of_string s) = true -> parse_int s = nan.
Proof.
  intros H; unfold parse_int.
  pose proof (skip_ws_forallb _ s H) as H1.
  destruct (skip_ws s) as [|c t]; [reflexivity|].
  simpl in H1; apply andb_prop in H1 as [Hc Ht]; apply negb_true_iff in Hc.
  destruct (Ascii.eqb c "-") eqn:Em; [cbn -[take_digits]; nondec_tail t Ht|].
  destruct (Ascii.eqb c "+") eqn:Ep; [cbn -[take_digits]; nondec_tail t Ht|].
  cbn -[take_digits]; rewrite (zero_ne_nondec c Hc).
  destruct t as [|x t0]; cbn -[take_digits]; rewrite (take_digits_nondec c _ Hc); reflexivity.
Qed.

Lemma parse_int_nan_witness : parse_int " -abc" = nan.
Proof. apply parse_int_nan; reflexivity. Defined.

Lemma split_on_forallb (P : Ascii.ascii -> bool) (sep : Ascii.ascii) (s : string) :
  forallb P (list_ascii_of_string s) = true ->
  Forall (fun seg => forallb P (list_ascii_of_string seg) = true) (split_on sep s).
Proof.
  induction s as [|c s IH]; simpl; intros H; [repeat constructor|].
  apply andb_prop in H as [Hc Hs]; specialize (IH Hs).
  destruct (Ascii.eqb c sep); [constructor; [reflexivity|exact IH]|].
  destruct (split_on sep s) as [|w ws]; [repeat constructor; simpl; rewrite Hc; reflexivity|].
  inversion IH; subst; constructor; [simpl; rewrite Hc; assumption|assumption].
Qed.

(** X13. [DELETE /api/words/batch/:ids] never answers 404: when no
    comma-separated segment contains a decimal digit every [parseInt]
    is NaN and the answer is 400 with nothing deleted; otherwise it is
    either that 400 or [Deleted n words] where [n] is the number of
    rows removed (0 when no id matches). *)
Theorem batch_delete_result (ids : string) (st : wstore) :
  (forallb (fun c => negb (is_dec c)) (list_ascii_of_string ids) = true ->
   batch_delete ids st = (st, DErr 400)) /\
  ((snd (batch_delete ids st) = DErr 400 /\ fst (batch_delete ids st) = st) \/
   exists n, snd (batch_delete ids st) = DDeleted n /\
             (List.length (words (fst (batch_delete ids st))) + n = List.length (words st))%nat).
Proof.
  split.
  - intros H; unfold batch_delete.
    replace (filter _ _) with (@nil float); [reflexivity|].
    pose proof (split_on_forallb _ ","%char ids H) as F.
    induction F as [|seg segs Hseg _ IH]; [reflexivity|].
    simpl; rewrite (parse_int_nan seg Hseg); exact IH.
  - unfold batch_delete.
    destruct (filter _ _) as [|x xs]; [left; split; reflexivity|right].
    eexists; split; [reflexivity|]; simpl.
    match goal with
    | |- (List.length (filter ?f ?l) + _)%nat = _ =>
        pose proof (List.filter_length_le f l); lia
    end.
Qed.

Open Scope list_scope.

Lemma list_ascii_of_string_app (s t : string) :
  list_ascii_of_string (s ++ t) = list_ascii_of_string s ++ list_ascii_of_string t.
Proof. induction s as [|c s IH]; simpl; [reflexivity|rewrite IH; reflexivity]. Qed.

Lemma like_pct_cons (p s : list Ascii.ascii) :
  like ("%"%char :: p) s = like p s || match s with [] => false | _ :: t => like ("%"%char :: p) t end.
Proof. destruct s; reflexivity. Qed.

Lemma like_pct (p s : list Ascii.ascii) :
  like ("%"%char :: p) s = true <-> exists a b, s = a ++ b /\ like p b = true.
Proof.
  induction s as [|c s IH]; rewrite like_pct_cons.
  - rewrite orb_false_r; split; [intros H; exists [], []; auto|].
    intros (a & b & E & H); destruct a; [simpl in E; subst; exact H|discriminate].
  - rewrite orb_true_iff, IH; split.
    + intros [H|(a & b & E & H)]; [exists [], (c :: s); auto|].
      exists (c :: a), b; subst; auto.
    + intros (a & b & E & H); destruct a as [|c' a]; [left; simpl in E; subst; exact H|].
      right; injection E as <- E; exists a, b; auto.
Qed.

Lemma like_pct_any (s : list Ascii.ascii) : like ["%"%char] s = true.
Proof. apply like_pct; exists s, []; rewrite app_nil_r; auto. Qed.






Lemma pattern_chars (q : string) :
  list_ascii_of_string ("%" ++ js_to_lower q ++ "%")%string =
  "%"%char :: map js_lower_char (list_ascii_of_string q) ++ ["%"%char].
Proof.
  unfold js_to_lower; rewrite list_ascii_of_string_app; simpl.
  rewrite list_ascii_of_string_app, list_ascii_of_string_of_list_ascii; reflexivity.
Qed.



(** X15. The LIKE wildcards are not escaped: the empty query and the
    query [%] both return every word, in table order. *)
Theorem search_words_all (st : wstore) :
  search_words "" st = words st /\ search_words "%" st = words st.
Proof.
  assert (A : forall p s, like p s = true -> like ("%"%char :: p) s = true).
  { intros p s H; apply like_pct; exists [], s; auto. }
  split; unfold search_words; apply forallb_filter_id, forallb_forall; intros w _;
    unfold like_field; rewrite pattern_chars; cbn [list_ascii_of_string map app].
  - rewrite (A _ _ (like_pct_any _)); reflexivity.
  - replace (js_lower_char "%") with "%"%char by reflexivity.
    rewrite (A _ _ (A _ _ (like_pct_any _))); reflexivity.
Qed.

End WordsApiFacts.

(* ================================================================== *)
(** ** Facts about the reading import and the passage reads *)
(* ================================================================== *)

Module ReadingFacts.

Import JsRegex Importer ReadingApi.
Open Scope Z_scope.












Lemma find_map_same {A} (P : A -> bool) (f : A -> A) (l : list A) :
  (forall x, P (f x) = P x) -> find P (map f l) = option_map f (find P l).
Proof.
  intros Hf; induction l as [|x l IH]; simpl; [reflexivity|].
  rewrite Hf; destruct (P x); [reflexivity|exact IH].
Qed.

Definition bump_passage (id : Z) (p' : passage_row) : passage_row :=
  if rp_id p' =? id
  then {| rp_id := rp_id p'; rp_title := rp_title p'; rp_content := rp_content p';
          rp_exposure := rp_exposure p' + 1 |}
  else p'.

Lemma get_passage_shape (id : Z) (db : rstore) :
  get_passage id db =
  match find (fun p => rp_id p =? id) (passages db) with
  | None => (db, PErr 404)
  | Some p =>
      ({| passages := map (bump_passage id) (passages db); questions := questions db;
          next_passage_id := next_passage_id db; next_question_id := next_question_id db |},
       PFound p (filter (fun q => rq_passage_id q =? id) (questions db)))
  end.
Proof. reflexivity. Qed.








(** X18. [GET /api/reading/passage/:id] answers 404 exactly when no
    passage has the id, and then changes nothing. Otherwise it answers
    the first passage with that id as it was read, with the old
    exposure, and the question rows of that passage. Afterwards that
    passage's exposure is one higher; no id, title or content changes,
    and the question table is untouched. *)
Theorem get_passage_result (id : Z) (db : rstore) :
  (snd (get_passage id db) = PErr 404 <-> find (fun p => rp_id p =? id) (passages db) = None) /\
  (snd (get_passage id db) = PErr 404 -> fst (get_passage id db) = db) /\
  (forall p qs, snd (get_passage id db) = PFound p qs ->
     rp_id p = id /\ In p (passages db) /\
     Forall (fun q => rq_passage_id q = id /\ In q (questions db)) qs /\
     questions (fst (get_passage id db)) = questions db /\
     map (fun p' => (rp_id p', rp_title p', rp_content p')) (passages (fst (get_passage id db))) =
       map (fun p' => (rp_id p', rp_title p', rp_content p')) (passages db) /\
     find (fun p' => rp_id p' =? id) (passages (fst (get_passage id db))) =
       Some {| rp_id := rp_id p; rp_title := rp_title p; rp_content := rp_content p;
               rp_exposure := rp_exposure p + 1 |}).
Proof.
  rewrite get_passage_shape.
  destruct (find (fun p => rp_id p =? id) (passages db)) as [p|] eqn:E; simpl.
  - split; [split; discriminate|split; [discriminate|]].
    intros p' qs H; injection H as <- <-.
    pose proof E as E0; apply find_some in E as [Hin Hid]; apply Z.eqb_eq in Hid.
    split; [exact Hid|split; [exact Hin|split; [|split; [reflexivity|split]]]].
    + apply Forall_forall; intros q Hq; apply filter_In in Hq as [Hq Hp].
      split; [apply Z.eqb_eq; exact Hp|exact Hq].
    + rewrite map_map; apply map_ext; intros p'; unfold bump_passage.
      destruct (rp_id p' =? id); reflexivity.
    + rewrite find_map_same.
      * rewrite E0; unfold bump_passage; simpl.
        rewrite Hid, Z.eqb_refl; reflexivity.
      * intros p'; unfold bump_passage; destruct (rp_id p' =? id) eqn:B; simpl; exact B.
  - split; [split; reflexivity|split; [reflexivity|]].
    intros p qs H; discriminate.
Qed.

Lemma filter_map_swap {A B} (p : B -> bool) (f : A -> B) (l : list A) :
  filter p (map f l) = map f (filter (fun x => p (f x)) l).
Proof.
  induction l as [|x l IH]; simpl; [reflexivity|].
  destruct (p (f x)); simpl; rewrite IH; reflexivity.
Qed.

(** X19. [POST /api/reading/submit-answers] with a non-zero passage id
    and an answers object: the response lists one result per question
    row of the passage, in table order; [totalQuestions] is their
    number and [correctCount] the number marked correct; a missing or
    empty answer is never correct. The reading tables are untouched,
    and exactly one [test_results] row is added, holding the same
    score and counts, unless the score is NaN, when none is. *)
Theorem submit_answers_consistent (toUpperCase : jstr -> jstr) (pid : Z)
    (ans : list (Z * jstr)) (st : Submit.sstore) :
  pid <> 0 ->
  exists score results,
    snd (Submit.submit_answers toUpperCase (Some pid) (Some ans) st) =
      Submit.SOk score (List.length (filter Submit.isCorrect results)) (List.length results) results /\
    map Submit.questionId results = map rq_id (Submit.passage_questions pid st) /\
    Forall (fun r => (Submit.userAnswer r = None \/ Submit.userAnswer r = Some []) ->
                     Submit.isCorrect r = false) results /\
    Submit.reading (fst (Submit.submit_answers toUpperCase (Some pid) (Some ans) st)) =
      Submit.reading st /\
    ((is_nan score = true /\
      Submit.test_results (fst (Submit.submit_answers toUpperCase (Some pid) (Some ans) st)) =
        Submit.test_results st) \/
     (is_nan score = false /\
      Submit.test_results (fst (Submit.submit_answers toUpperCase (Some pid) (Some ans) st)) =
        Submit.test_results st ++
          [{| Submit.tr_id := Submit.next_result_id st; Submit.tr_score := score;
              Submit.tr_total_words := Z.of_nat (List.length results);
              Submit.tr_correct_count := Z.of_nat (List.length (filter Submit.isCorrect results));
              Submit.tr_incorrect_count :=
                Z.of_nat (List.length results) - Z.of_nat (List.length (filter Submit.isCorrect results));
              Submit.tr_type := "reading-comprehension"%string |}])).
Proof.
  intros Hp; unfold Submit.submit_answers.
  replace (pid =? 0) with false by (symmetry; apply Z.eqb_neq; exact Hp).
  set (qs := Submit.passage_questions pid st).
  set (f := fun q => {| Submit.questionId := rq_id q;
                        Submit.userAnswer := Submit.obj_lookup (rq_id q) ans;
                        Submit.correctAnswer := rq_correct_answer q;
                        Submit.isCorrect := Submit.is_correct toUpperCase ans q |}).
  assert (Lr : List.length (map f qs) = List.length qs) by apply length_map.
  assert (Lc : List.length (filter Submit.isCorrect (map f qs)) =
               List.length (filter (Submit.is_correct toUpperCase ans) qs)).
  { rewrite filter_map_swap, length_map; reflexivity. }
  eexists; exists (map f qs); simpl.
  rewrite Lr, Lc; split; [reflexivity|].
  split; [rewrite map_map; reflexivity|].
  split.
  - rewrite Forall_map; apply Forall_forall; intros q _; simpl.
    unfold Submit.is_correct; intros [E|E]; rewrite E; reflexivity.
  - unfold Submit.insert_test_result.
    destruct (is_nan _) eqn:N; simpl; [split; [reflexivity|left; split; reflexivity]|].
    split; [reflexivity|right; split; reflexivity].
Qed.

Lemma submit_answers_consistent_witness :
  exists score results,
    snd (Submit.submit_answers Submit.ascii_upper (Some 1) (Some SubmitFacts.two_answers)
           SubmitFacts.two_question_store) =
      Submit.SOk score (List.length (filter Submit.isCorrect results)) (List.length results) results.
Proof.
  destruct (submit_answers_consistent Submit.ascii_upper 1 SubmitFacts.two_answers
              SubmitFacts.two_question_store ltac:(lia))
    as (score & results & E & _).
  exists score, results; exact E.
Defined.

End ReadingFacts.


(* ================================================================== *)
(** ** Error edges of the handlers, and the word update *)
(* ================================================================== *)

Module EdgeFacts.

Open Scope Z_scope.

(** X20. [POST /api/mistakes] without a [word_id], or with 0, answers
    400 and changes nothing. [POST /api/mistakes/correct/:wordId]
    answers 404 exactly when the word has no mistakes row, and then
    changes nothing; it never creates a row. *)
Theorem mistakes_request_errors (st : Mistakes.mstore) (w : Z) (wo : option Z) :
  ((wo = None \/ wo = Some 0) -> Mistakes.post_mistakes wo st = (st, Mistakes.MErr 400)) /\
  (Mistakes.select_by_word w st = None <->
   snd (Mistakes.post_mistakes_correct w st) = Mistakes.MErr 404) /\
  (Mistakes.select_by_word w st = None -> fst (Mistakes.post_mistakes_correct w st) = st) /\
  (List.length (Mistakes.rows (fst (Mistakes.post_mistakes_correct w st))) <=
   List.length (Mistakes.rows st))%nat.
Proof.
  unfold Mistakes.post_mistakes_correct, Mistakes.correct_write.
  split; [intros [E|E]; subst; reflexivity|].
  destruct (Mistakes.select_by_word w st) as [row|] eqn:E.
  - destruct (2 <=? Mistakes.correct_streak row + 1); simpl.
    + split; [split; discriminate|split; [discriminate|apply List.filter_length_le]].
    + split; [split; discriminate|split; [discriminate|]].
      rewrite length_map; reflexivity.
  - simpl; split; [split; reflexivity|split; [reflexivity|reflexivity]].
Qed.


Import Words WordsApi.

(** The word "apple" renamed by a PUT. *)
Definition pear_store : wstore :=
  {| words := [{| w_id := 1; english := "pear"; chinese := "li"; example := None;
                  familiarity := 0; exposure := 0 |}];
     w_next_id := 2 |}.

(** X22. When [PUT /api/words/:id] succeeds, the row with that id
    existed, the answer echoes the request, and [GET /api/words/:id]
    then returns the row with the new english, chinese and example and
    the old familiarity and exposure; no id changes, no other row
    changes, and the AUTOINCREMENT counter is untouched. *)
Theorem put_word_success (id i : Z) (e c ex : option string) (e' c' : string)
    (ex' : option string) (st st' : wstore) :
  put_word id e c ex st = (st', WFields i e' c' ex') ->
  exists w, find_word id st = Some w /\ w_id w = id /\ i = id /\
    e = Some e' /\ c = Some c' /\ ex' = ex /\
    get_word id st' =
      WRow {| w_id := id; english := e'; chinese := c'; example := ex;
              familiarity := familiarity w; exposure := exposure w |} /\
    map w_id (words st') = map w_id (words st) /\
    filter (fun x => negb (w_id x =? id)) (words st') =
      filter (fun x => negb (w_id x =? id)) (words st) /\
    w_next_id st' = w_next_id st.
Proof.
  unfold put_word; intros H.
  destruct e as [e0|], c as [c0|]; simpl in H;
    try discriminate; try (destruct (String.eqb _ _); discriminate).
  destruct (String.eqb e0 "") eqn:He, (String.eqb c0 "") eqn:Hc; simpl in H;
    try discriminate.
  destruct (find_word id st) as [w|] eqn:F; [|discriminate].
  destruct (unique_violation id e0 st); [discriminate|].
  injection H as <- <- <- <- <-.
  pose proof F as F0; unfold find_word in F0; apply find_some in F0 as [_ Hid].
  apply Z.eqb_eq in Hid.
  exists w; repeat split; try reflexivity; try exact Hid.
  - unfold get_word, find_word, update_word_where_id; simpl.
    unfold find_word in F.
    rewrite (ReadingFacts.find_map_same (fun x => w_id x =? id)); [|intros x; destruct (w_id x =? id) eqn:B; simpl; rewrite ?B; reflexivity].
    rewrite F; simpl; rewrite Hid, Z.eqb_refl; reflexivity.
  - simpl; rewrite map_map; apply map_ext; intros x; destruct (w_id x =? id); reflexivity.
  - simpl; induction (words st) as [|x l IH]; simpl; [reflexivity|].
    destruct (w_id x =? id) eqn:B; simpl; rewrite ?B; simpl; [exact IH|f_equal; exact IH].
Qed.

Lemma put_word_success_witness :
  put_word 1 (Some "pear"%string) (Some "li"%string) None WordsApiFacts.apple_store =
    (pear_store, WFields 1 "pear" "li" None) /\
  get_word 1 pear_store =
    WRow {| w_id := 1; english := "pear"; chinese := "li"; example := None;
            familiarity := 0; exposure := 0 |}.
Proof.
  assert (H : put_word 1 (Some "pear"%string) (Some "li"%string) None WordsApiFacts.apple_store =
              (pear_store, WFields 1 "pear" "li" None)) by reflexivity.
  split; [exact H|].
  destruct (put_word_success _ _ _ _ _ _ _ _ _ _ H)
    as (w & F & _ & _ & _ & _ & _ & G & _).
  rewrite G; injection F as <-; reflexivity.
Defined.

End EdgeFacts.
